(** * moduledependency: the import parser

    A shallow embedding of [moduledependency/parser.py] (classes
    [ParseError], [ParsedImport] and [ImportParser]) and the properties of
    its [parse] entry point.

    The parser is a Python object with three mutable attributes
    ([foundImports], [tokens], [index]); its methods are modelled as
    computations in a state-and-exception monad over a record holding those
    attributes.  The three [while] loops of the source are modelled by
    fuel-indexed fixpoints; the fuel each method hands to its loop is
    computed from the state, and Section [Totality] shows that it is never
    exhausted and that more fuel never changes a result.

    The two [print] calls of [parse] write to standard output only and are
    left out. *)

From Stdlib Require Import String Ascii List Arith NArith ZArith Bool Lia.
Import ListNotations.

Local Open Scope string_scope.
Local Open Scope list_scope.

(** ** Data model *)

(** Modelled from the spec: the [Token] class lives in [tokeniser.py], which
    is not among the sources.  A token is a type tag from the closed
    vocabulary [identifier], [import], [from], [.], [,], [*], [other]
    (constructing a token of any other type fails) together with a string
    payload.  A token is an ordinary object, hence truthy in a condition such
    as [while token:]. *)
Inductive TokenType : Type :=
| T_identifier
| T_import
| T_from
| T_dot
| T_comma
| T_star
| T_other.

(** The string the source compares [token.type] with. *)
Definition tag (ty : TokenType) : string :=
  match ty with
  | T_identifier => "identifier"
  | T_import => "import"
  | T_from => "from"
  | T_dot => "."
  | T_comma => ","
  | T_star => "*"
  | T_other => "other"
  end.

Record Token : Type := mkToken { type : TokenType; value : string }.

(** [Token(ty)] without a payload: the payload defaults to the tag. *)
Definition Tok (ty : TokenType) : Token := mkToken ty (tag ty).
Definition Ident (s : string) : Token := mkToken T_identifier s.

Definition TokenType_eqb (a b : TokenType) : bool :=
  match a, b with
  | T_identifier, T_identifier | T_import, T_import | T_from, T_from
  | T_dot, T_dot | T_comma, T_comma | T_star, T_star | T_other, T_other => true
  | _, _ => false
  end.

(** [class ParseError(ValueError)]: one constructor per [raise] site of the
    parser, named after its message. *)
Inductive ParseError : Type :=
| UnexpectedEndOfTokens            (* "Unexpected end of tokens" *)
| MustStartWithIdentifier          (* "Dotted identifier must start with an identifier token" *)
| TrailingDotOperator              (* "Unexpected end of tokens - trailing dot operator" *)
| ConsecutiveDotOperators          (* "Invalid identifier - two consecutive dot operators present" *)
| ModuleIdentifierShouldFollowFrom (* "Module identifier should follow a 'from' keyword" *)
| ImportKeywordShouldFollowRoot (t : Token)
| NeverImportedAnyObjects (t : Token).

(** [class ParsedImport].  [moduleName] is whatever [addImport] was handed:
    a string, or [None] when [parseDottedIdentifier] returned [None]. *)
Record ParsedImport : Type :=
  mkParsedImport { moduleName : option string; relative : bool }.

Definition isRelative (i : ParsedImport) : bool := relative i.

(** The attributes of an [ImportParser] instance.  [index] only ever moves by
    [+= 1], and by one [-= 1] that directly follows a [+= 1], starting from
    0: a natural number. *)
Record ImportParser : Type :=
  mkParser { foundImports : list ParsedImport;
             tokens : list Token;
             index : nat }.

(** ** The state-and-exception monad of the methods *)

Inductive outcome (A : Type) : Type :=
| Returns (a : A)
| Raises (e : ParseError)
| OutOfFuel.
Arguments Returns {A} a.
Arguments Raises {A} e.
Arguments OutOfFuel {A}.

Definition M (A : Type) : Type := ImportParser -> outcome A * ImportParser.

Definition ret {A} (a : A) : M A := fun p => (Returns a, p).
Definition raise {A} (e : ParseError) : M A := fun p => (Raises e, p).
Definition bind {A B} (m : M A) (k : A -> M B) : M B :=
  fun p =>
    match m p with
    | (Returns a, p') => k a p'
    | (Raises e, p') => (Raises e, p')
    | (OutOfFuel, p') => (OutOfFuel, p')
    end.

Notation "x <- m ;; k" := (bind m (fun x => k))
  (at level 61, m at next level, right associativity).
Notation "m ;;; k" := (bind m (fun _ => k))
  (at level 61, right associativity).

(** ** The methods of [ImportParser] *)

(** [__init__] and [clear]. *)
Definition cleared : ImportParser := mkParser [] [] 0.
Definition clear : M unit := fun _ => (Returns tt, cleared).

Definition currentTokenOf (p : ImportParser) : option Token :=
  if Nat.ltb (index p) (length (tokens p)) then nth_error (tokens p) (index p) else None.

Definition currentToken : M (option Token) :=
  fun p => (Returns (currentTokenOf p), p).

Definition nextToken : M (option Token) :=
  fun p => currentToken (mkParser (foundImports p) (tokens p) (index p + 1)).

Definition addImport (name : option string) (rel : bool) : M unit :=
  fun p => (Returns tt,
            mkParser (foundImports p ++ [mkParsedImport name rel]) (tokens p) (index p)).

(** The [while True] loop of [parseDottedIdentifier] (lines 117-139), with
    its three local variables; it returns [name] at a [break]. *)
Fixpoint dottedLoop (fuel : nat) (token : option Token) (name : string)
         (lookingForDot : bool) : M string :=
  match fuel with
  | O => fun p => (OutOfFuel, p)
  | S fuel' =>
      if lookingForDot then
        match token with
        | None => ret name
        | Some t =>
            match type t with
            | T_identifier => ret name
            | T_dot => token' <- nextToken ;; dottedLoop fuel' token' (name ++ ".")%string false
            | _ => ret name
            end
        end
      else
        match token with
        | None => raise TrailingDotOperator
        | Some t =>
            match type t with
            | T_identifier =>
                token' <- nextToken ;; dottedLoop fuel' token' (name ++ value t)%string true
            | T_dot => raise ConsecutiveDotOperators
            | _ => ret name
            end
        end
  end.

(** An upper bound on the iterations of a loop that advances [index] by one
    per iteration and leaves at the latest when the tokens are exhausted. *)
Definition loopFuel (p : ImportParser) : nat := S (length (tokens p) - index p).

Definition parseDottedIdentifier : M (option string) :=
  token <- currentToken ;;
  match token with
  | None => raise UnexpectedEndOfTokens
  | Some t =>
      match type t with
      | T_star => ret (Some "*")
      | T_identifier =>
          name <- (fun p => dottedLoop (S (loopFuel p)) token "" false p) ;;
          if name =? "" then ret None else ret (Some name)
      | _ => raise MustStartWithIdentifier
      end
  end.

Definition parseImport : M unit :=
  nextToken ;;;
  moduleName <- parseDottedIdentifier ;;
  addImport moduleName false.

(** The [while] loop of [parseImportedObjects] (lines 202-204). *)
Fixpoint objectsLoop (fuel : nat) (importedObjects : list (option string))
  : M (list (option string)) :=
  match fuel with
  | O => fun p => (OutOfFuel, p)
  | S fuel' =>
      token <- currentToken ;;
      match token with
      | None => ret importedObjects
      | Some t =>
          if TokenType_eqb (type t) T_comma then
            nextToken ;;;
            obj <- parseDottedIdentifier ;;
            objectsLoop fuel' (importedObjects ++ [obj])
          else ret importedObjects
      end
  end.

Definition parseImportedObjects : M (list (option string)) :=
  first <- parseDottedIdentifier ;;
  fun p => objectsLoop (loopFuel p) [first] p.

(** [str.format] renders [None] as the text [None]. *)
Definition pystr (o : option string) : string :=
  match o with
  | Some s => s
  | None => "None"
  end.

(** [not rootModuleName]: [None] and the empty string are falsy. *)
Definition falsy (o : option string) : bool :=
  match o with
  | Some s => s =? ""
  | None => true
  end.

Definition isWildcard (o : option string) : bool :=
  match o with
  | Some s => s =? "*"
  | None => false
  end.

(** The [for obj in importedObjects] loop of [parseFrom] (lines 186-188). *)
Fixpoint addEach (rootModuleName : string) (rel : bool)
         (importedObjects : list (option string)) : M unit :=
  match importedObjects with
  | [] => ret tt
  | obj :: rest =>
      addImport (Some (rootModuleName ++ "." ++ pystr obj)%string) rel ;;;
      addEach rootModuleName rel rest
  end.

(** Lines 152-160 of [parseFrom]: the look-ahead that decides between a
    relative and an absolute import. *)
Definition fromLookahead : M bool :=
  token <- nextToken ;;
  match token with
  | None => raise UnexpectedEndOfTokens
  | Some t =>
      if TokenType_eqb (type t) T_dot then ret true
      else fun p => (Returns false,
                     mkParser (foundImports p) (tokens p) (index p - 1))
  end.

(** Lines 164-188 of [parseFrom]: what follows the parse of the root name. *)
Definition fromAfterRoot (rootModuleName : option string) (rel : bool) : M unit :=
  if falsy rootModuleName then raise ModuleIdentifierShouldFollowFrom
  else
    token <- currentToken ;;
    match token with
    | None => raise UnexpectedEndOfTokens
    | Some t =>
        if negb (TokenType_eqb (type t) T_import)
        then raise (ImportKeywordShouldFollowRoot t)
        else
          importedObjects <- parseImportedObjects ;;
          if Nat.eqb (length importedObjects) 0 then raise (NeverImportedAnyObjects t)
          else if existsb isWildcard importedObjects
               then addImport rootModuleName rel
               else addEach (pystr rootModuleName) rel importedObjects
    end.

Definition parseFrom : M unit :=
  rel <- fromLookahead ;;
  rootModuleName <- parseDottedIdentifier ;;
  fromAfterRoot rootModuleName rel.

(** The [while token:] loop of [parse] (lines 66-74).  [token] is a local
    variable of [parse]: only the [else] branch assigns it. *)
Fixpoint parseLoop (fuel : nat) (token : option Token) : M unit :=
  match token with
  | None => ret tt
  | Some t =>
      match fuel with
      | O => fun p => (OutOfFuel, p)
      | S fuel' =>
          match type t with
          | T_import => parseImport ;;; parseLoop fuel' token
          | T_from => parseFrom ;;; parseLoop fuel' token
          | _ => token' <- nextToken ;; parseLoop fuel' token'
          end
      end
  end.

Definition parse (toks : list Token) : M (list ParsedImport) :=
  if Nat.eqb (length toks) 0 then ret []
  else
    clear ;;;
    (fun p => (Returns tt, mkParser (foundImports p) toks (index p))) ;;;
    token <- currentToken ;;
    (fun p => parseLoop (loopFuel p) token p) ;;;
    temp <- (fun p => (Returns (foundImports p), p)) ;;
    clear ;;;
    ret temp.

(** What a caller of [parser.parse(toks)] observes. *)
Definition result (toks : list Token) (p : ImportParser) : outcome (list ParsedImport) :=
  fst (parse toks p).

(** ** Vocabulary of the statements *)

(** The tokens that have not been consumed yet. *)
Definition pending (p : ImportParser) : list Token := skipn (index p) (tokens p).

(** The measure that bounds every loop: how far the cursor is from the end. *)
Definition remaining (p : ImportParser) : nat := length (tokens p) - index p.

Definition advance (k : nat) (p : ImportParser) : ImportParser :=
  mkParser (foundImports p) (tokens p) (index p + k).

(** [p'] can be reached from [p] by the sub-parsers that only move the cursor. *)
Definition moved (p p' : ImportParser) : Prop :=
  tokens p' = tokens p /\ foundImports p' = foundImports p /\ index p <= index p'.

(** [p'] differs from [p] by a cursor move and by records whose flag is
    [rel], appended to [foundImports]. *)
Definition recorded (rel : bool) (p p' : ImportParser) : Prop :=
  tokens p' = tokens p /\
  exists l, foundImports p' = foundImports p ++ l /\
            Forall (fun i => relative i = rel) l.

(** The loop invariant of [parse]: the local variable [token] is the
    current token, unless it is an [import] token the loop is stuck on. *)
Definition loopToken (token : option Token) (p : ImportParser) : Prop :=
  token = currentTokenOf p \/ exists t, token = Some t /\ type t = T_import.

(** The parser as [parse] leaves it before entering its loop. *)
Definition started (toks : list Token) : ImportParser := mkParser [] toks 0.

(** A token the top-level loop steps over. *)
Definition ordinary (t : Token) : Prop := type t <> T_import /\ type t <> T_from.

(** The tokens of [.b.c...] and the name they add to what precedes them. *)
Definition dotted (ids : list string) : list Token :=
  flat_map (fun s => [Tok T_dot; Ident s]) ids.

Definition dottedName (name : string) (ids : list string) : string :=
  fold_left (fun acc s => ((acc ++ ".") ++ s)%string) ids name.

Definition absolute (i : ParsedImport) : Prop := relative i = false.

(** The parser a caller is left with after [parse] raised on the tokens of
    [import a]. *)
Definition staleParser : ImportParser :=
  snd (parse [Tok T_import; Ident "a"] cleared).

(** The tokens of the source without imports used by the tokeniser's tests. *)
Definition noImportTokens : list Token :=
  [Ident "def"; Ident "testFunction";
   mkToken T_other "("; Ident "x"; mkToken T_other ")"; mkToken T_other ":";
   Ident "return"; Ident "x";
   Tok T_star; mkToken T_other "2"; Ident "something";
   mkToken T_other "="; mkToken T_other "["; mkToken T_other "]"].

(** [ParsedImport.__eq__], [__ne__] and [__str__] (lines 19-30).  Python's
    [==] on two module names compares strings, and [None] with itself. *)
Definition name_eqb (a b : option string) : bool :=
  match a, b with
  | Some x, Some y => (x =? y)%string
  | None, None => true
  | _, _ => false
  end.

Definition ParsedImport_eq (self other : ParsedImport) : bool :=
  name_eqb (moduleName self) (moduleName other)
  && Bool.eqb (relative self) (relative other).

Definition ParsedImport_ne (self other : ParsedImport) : bool :=
  negb (name_eqb (moduleName self) (moduleName other))
  || negb (Bool.eqb (relative self) (relative other)).

Definition ParsedImport_str (self : ParsedImport) : string :=
  ("(" ++ pystr (moduleName self) ++ ", "
       ++ (if isRelative self then "relative" else "absolute") ++ ")")%string.

(** A dotted name as written, [a.b.c]: its first identifier and the ones
    after the dots; its tokens, and what [parseDottedIdentifier] returns
    for it. *)
Definition dottedWord : Type := (string * list string)%type.

Definition nameTokens (w : dottedWord) : list Token := Ident (fst w) :: dotted (snd w).

Definition nameOf (w : dottedWord) : option string :=
  if (dottedName (fst w) (snd w) =? "")%string then None
  else Some (dottedName (fst w) (snd w)).

(** The tokens of [, w1, w2 ...]. *)
Definition afterComma (ws : list dottedWord) : list Token :=
  flat_map (fun w => Tok T_comma :: nameTokens w) ws.

(** The token that follows, if any, is not a dot: a dotted name ends here. *)
Definition endsName (suffix : list Token) : Prop :=
  forall t, hd_error suffix = Some t -> type t <> T_dot.

(** The token that follows, if any, is neither a dot nor a comma: a list of
    names ends here. *)
Definition endsList (suffix : list Token) : Prop :=
  forall t, hd_error suffix = Some t -> type t <> T_dot /\ type t <> T_comma.

(** The errors of [parseDottedIdentifier]. *)
Definition dottedIdentifierError (e : ParseError) : Prop :=
  e = UnexpectedEndOfTokens \/ e = MustStartWithIdentifier \/
  e = TrailingDotOperator \/ e = ConsecutiveDotOperators.

(** ** The command line: [moduledependency/cli.py]

    [ArgumentProcessor] turns the argument list of the program into a
    dictionary of options.  A Python [str] is modelled as its sequence of
    code points, a [dict] from [str] to [str] as an association list in
    insertion order; the exceptions are one constructor per [raise] site,
    with the Python class each belongs to.  The two things the class asks
    of its environment, [os.path.isdir] and the built-in [int], are
    parameters of the methods that use them. *)

Definition str : Type := list N.

(** The [str] of a literal written in ASCII. *)
Definition lit (s : string) : str := map N_of_ascii (list_ascii_of_string s).

Definition dash : N := 45.
Definition equalsSign : N := 61.
Definition doubleQuote : N := 34.
Definition singleQuote : N := 39.
Definition newline : N := 10.

Fixpoint str_eqb (a b : str) : bool :=
  match a, b with
  | [], [] => true
  | x :: a', y :: b' => N.eqb x y && str_eqb a' b'
  | _, _ => false
  end.

(** [s.split(sep)] for a separator of one character. *)
Fixpoint str_split (sep : N) (s : str) : list str :=
  match s with
  | [] => [[]]
  | c :: rest =>
      if N.eqb c sep then [] :: str_split sep rest
      else match str_split sep rest with
           | piece :: pieces => (c :: piece) :: pieces
           | [] => [[c]]
           end
  end.

(** Dictionaries: [d[k]] and [k in d], [d[k] = v], [del d[k]]. *)
Definition dict : Type := list (str * str).

Fixpoint dict_get (k : str) (d : dict) : option str :=
  match d with
  | [] => None
  | (k', v) :: rest => if str_eqb k k' then Some v else dict_get k rest
  end.

Definition dict_in (k : str) (d : dict) : bool :=
  match dict_get k d with
  | Some _ => true
  | None => false
  end.

Fixpoint dict_set (k v : str) (d : dict) : dict :=
  match d with
  | [] => [(k, v)]
  | (k', v') :: rest =>
      if str_eqb k k' then (k, v) :: rest else (k', v') :: dict_set k v rest
  end.

Definition dict_del (k : str) (d : dict) : dict :=
  filter (fun kv => negb (str_eqb k (fst kv))) d.

(** The exceptions of [cli.py], by [raise] site. *)
Inductive CliError : Type :=
| Usage                            (* RuntimeError(USAGE_MESSAGE) *)
| MandatoryOptionsMissing          (* RuntimeError("Not all mandatory options ...") *)
| DirectoryDoesNotExist (directory : str)   (* IOError *)
| NoValueSpecified (key : str)     (* RuntimeError("No value specified for option ...") *)
| NoValueForOption (key : str)     (* RuntimeError("No value for option ... specified") *)
| MoreThanOneEquals (key : str)    (* RuntimeError("More than one '=' for option ...") *)
| NoDashes                         (* ValueError("Invalid option name given (no dashes)") *)
| TooManyDashes (numPrefixDashes : nat)     (* ValueError *)
| ShortNameTooLong                 (* ValueError("Option name must be a single character ...") *)
| NoValue                          (* ValueError("No value for option specified") *)
| InvalidDepth (depth : str)       (* ValueError("Invalid depth ... provided") *)
| NegativeDepth                    (* ValueError("Maximum depth cannot be negative") *)
| StringIndexOutOfRange.           (* IndexError, raised by key[numPrefixDashes] *)

Inductive ExceptionClass : Type := RuntimeError | ValueError | IOError | IndexError.

Definition classOf (e : CliError) : ExceptionClass :=
  match e with
  | Usage | MandatoryOptionsMissing
  | NoValueSpecified _ | NoValueForOption _ | MoreThanOneEquals _ => RuntimeError
  | DirectoryDoesNotExist _ => IOError
  | NoDashes | TooManyDashes _ | ShortNameTooLong | NoValue
  | InvalidDepth _ | NegativeDepth => ValueError
  | StringIndexOutOfRange => IndexError
  end.

Inductive answer (A : Type) : Type :=
| Done (a : A)
| Fails (e : CliError).
Arguments Done {A} a.
Arguments Fails {A} e.

(** The class constants (lines 16, 51-60). *)
Definition MANDATORY_OPTIONS : list (list str) := [[lit "p"; lit "project"]].

Definition EQUIVALENT_OPTION_NAMES : list (list str) :=
  [[lit "p"; lit "project"]; [lit "q"; lit "quiet"];
   [lit "d"; lit "depth"]; [lit "o"; lit "outputter"]].

Definition STANDARD_OPTIONS : list str :=
  [lit "p"; lit "project"; lit "q"; lit "quiet";
   lit "d"; lit "depth"; lit "o"; lit "outputter"].

(** [STRING_REGEX.match(value)] (line 48).  The pattern asks for a quote
    character, double or single, at the start; then any characters but
    newlines; then the same quote character; and then the end of the string
    or the newline that ends it. *)
Definition isQuote (c : N) : bool := N.eqb c doubleQuote || N.eqb c singleQuote.

Definition stripFinalNewline (s : str) : str :=
  match rev s with
  | c :: before => if N.eqb c newline then rev before else s
  | [] => s
  end.

Definition stringRegexMatch (value : str) : bool :=
  match value with
  | [] => false
  | q :: rest =>
      isQuote q &&
      match rev (stripFinalNewline rest) with
      | c :: body => N.eqb c q && forallb (fun x => negb (N.eqb x newline)) body
      | [] => false
      end
  end.

(** [sanitiseKey] (lines 193-217); [dashLoop] is its [while] loop over
    [key[numPrefixDashes]], [unread] being [key[numPrefixDashes:]]. *)
Fixpoint dashLoop (unread : str) (numPrefixDashes : nat) : option nat :=
  match unread with
  | [] => None
  | c :: rest =>
      if N.eqb c dash then dashLoop rest (numPrefixDashes + 1)
      else Some numPrefixDashes
  end.

Definition sanitiseKey (key : str) : answer str :=
  match dashLoop key 0 with
  | None => Fails StringIndexOutOfRange
  | Some numPrefixDashes =>
      if Nat.eqb numPrefixDashes 0 then Fails NoDashes
      else if Nat.ltb 2 numPrefixDashes then Fails (TooManyDashes numPrefixDashes)
      else
        let sanitisedKey := skipn numPrefixDashes key in
        if Nat.eqb numPrefixDashes 1 && Nat.ltb 1 (length sanitisedKey)
        then Fails ShortNameTooLong
        else Done sanitisedKey
  end.

(** [sanitiseValue] (lines 219-231); [value[1:-1]] drops the first and the
    last character. *)
Definition sanitiseValue (value : str) : answer str :=
  if Nat.eqb (length value) 0 then Fails NoValue
  else if stringRegexMatch value then Done (removelast (tl value))
  else Done value.

(** [parseOptions] (lines 158-191): the [for] loop over the arguments, with
    the dictionary built so far. *)
Fixpoint parseOptionsLoop (args : list str) (options : dict) : answer dict :=
  match args with
  | [] => Done options
  | arg :: rest =>
      let keyAndValue := str_split equalsSign arg in
      match sanitiseKey (hd [] keyAndValue) with
      | Fails e => Fails e
      | Done key =>
          match keyAndValue with
          | [_] => Fails (NoValueSpecified key)
          | [_; v] =>
              match sanitiseValue v with
              | Fails e =>
                  match classOf e with
                  | ValueError => Fails (NoValueForOption key)
                  | _ => Fails e
                  end
              | Done value => parseOptionsLoop rest (dict_set key value options)
              end
          | _ => Fails (MoreThanOneEquals key)
          end
      end
  end.

Definition parseOptions (args : list str) : answer dict := parseOptionsLoop args [].

(** [checkForUsageMessage] (lines 145-156). *)
Definition checkForUsageMessage (args : list str) : answer unit :=
  if Nat.ltb (length args) 2
     || existsb (str_eqb (lit "-h")) args
     || existsb (str_eqb (lit "--help")) args
  then Fails Usage
  else Done tt.

(** The attributes of an [ArgumentProcessor].  [__init__] sets [options]
    only: the other three exist once [process] has assigned them, [None]
    standing for an attribute that is not there yet. *)
Record ArgumentProcessor : Type :=
  mkProcessor { options : dict;
                projectDirectory : option str;
                maxDepth : option (option Z);
                outputterName : option (option str) }.

Definition newProcessor : ArgumentProcessor := mkProcessor [] None None None.

(** [getOption] (lines 110-130): the inner and the outer [for] loop. *)
Fixpoint firstPresent (equivalences : list str) (d : dict) : option str :=
  match equivalences with
  | [] => None
  | alternateName :: rest =>
      match dict_get alternateName d with
      | Some v => Some v
      | None => firstPresent rest d
      end
  end.

Fixpoint getOptionLoop (optionName : str) (names : list (list str)) (d : dict)
  : option str :=
  match names with
  | [] => None
  | equivalences :: rest =>
      if existsb (str_eqb optionName) equivalences then
        match firstPresent equivalences d with
        | Some v => Some v
        | None => getOptionLoop optionName rest d
        end
      else getOptionLoop optionName rest d
  end.

Definition getOption (optionName : str) (self : ArgumentProcessor) : option str :=
  if negb (dict_in optionName (options self))
  then getOptionLoop optionName EQUIVALENT_OPTION_NAMES (options self)
  else dict_get optionName (options self).

(** [checkMandatoryOptions] (lines 132-143); its parameter is not read, the
    loops look at [self.options]. *)
Definition checkMandatoryOptions (_options : dict) (self : ArgumentProcessor) : bool :=
  forallb (fun optionNames =>
             existsb (fun option => dict_in option (options self)) optionNames)
          MANDATORY_OPTIONS.

(** [getOutputterArguments] (lines 251-262), on a deep copy of
    [self.options]. *)
Definition getOutputterArguments (self : ArgumentProcessor) : dict :=
  fold_left (fun args name => if dict_in name args then dict_del name args else args)
            STANDARD_OPTIONS (options self).

Section Environment.

(** [os.path.isdir], and [int] on a string: [None] when it raises
    [ValueError]. *)
Variable isdir : str -> bool.
Variable int : str -> option Z.

(** [validateDepth] (lines 233-249). *)
Definition validateDepth (depth : str) : answer Z :=
  match int depth with
  | None => Fails (InvalidDepth depth)
  | Some n => if Z.ltb n 0 then Fails NegativeDepth else Done n
  end.

(** [setProjectDirectory] (lines 97-108). *)
Definition setProjectDirectory (directory : str) (self : ArgumentProcessor)
  : answer unit * ArgumentProcessor :=
  if negb (isdir directory) then (Fails (DirectoryDoesNotExist directory), self)
  else (Done tt,
        mkProcessor (options self) (Some directory) (maxDepth self) (outputterName self)).

(** [process] (lines 66-95), statement by statement. *)
Definition processProject (self : ArgumentProcessor) : answer unit * ArgumentProcessor :=
  match dict_get (lit "p") (options self) with
  | Some directory => setProjectDirectory directory self
  | None =>
      match dict_get (lit "project") (options self) with
      | Some directory => setProjectDirectory directory self
      | None => (Done tt, self)
      end
  end.

Definition setMaxDepth (depth : option Z) (self : ArgumentProcessor) : ArgumentProcessor :=
  mkProcessor (options self) (projectDirectory self) (Some depth) (outputterName self).

Definition processDepth (self : ArgumentProcessor) : answer unit * ArgumentProcessor :=
  match dict_get (lit "d") (options self) with
  | Some depth =>
      match validateDepth depth with
      | Done n => (Done tt, setMaxDepth (Some n) self)
      | Fails e => (Fails e, self)
      end
  | None =>
      match dict_get (lit "depth") (options self) with
      | Some depth =>
          match validateDepth depth with
          | Done n => (Done tt, setMaxDepth (Some n) self)
          | Fails e => (Fails e, self)
          end
      | None => (Done tt, setMaxDepth None self)
      end
  end.

Definition processOutputter (self : ArgumentProcessor) : ArgumentProcessor :=
  mkProcessor (options self) (projectDirectory self) (maxDepth self)
    (Some (match dict_get (lit "o") (options self) with
           | Some name => Some name
           | None => dict_get (lit "outputter") (options self)
           end)).

Definition process (args : list str) (self : ArgumentProcessor)
  : answer unit * ArgumentProcessor :=
  match checkForUsageMessage args with
  | Fails e => (Fails e, self)
  | Done _ =>
      match parseOptions (tl args) with
      | Fails e => (Fails e, self)
      | Done parsed =>
          let self1 :=
            mkProcessor parsed (projectDirectory self) (maxDepth self)
                        (outputterName self) in
          match processProject self1 with
          | (Fails e, self2) => (Fails e, self2)
          | (Done _, self2) =>
              match processDepth self2 with
              | (Fails e, self3) => (Fails e, self3)
              | (Done _, self3) =>
                  let self4 := processOutputter self3 in
                  if negb (checkMandatoryOptions (options self4) self4)
                  then (Fails MandatoryOptionsMissing, self4)
                  else (Done tt, self4)
              end
          end
      end
  end.

End Environment.

(** Vocabulary for the command line.  A value is [quoted] when it reads
    as the pattern of [STRING_REGEX] asks. *)
Definition quoted (value : str) : Prop :=
  exists q body,
    isQuote q = true /\ Forall (fun c => c <> newline) body /\
    (value = q :: body ++ [q] \/ value = q :: body ++ [q; newline]).

(** An option as written on the command line: [-k=value] or [--key=value]. *)
Record optionText : Type :=
  mkOption { short : bool; optionKey : str; optionValue : str }.

Definition optionArg (o : optionText) : str :=
  (if short o then [dash] else [dash; dash]) ++ optionKey o ++ equalsSign :: optionValue o.

Definition wellFormedOption (o : optionText) : Prop :=
  (exists c rest, optionKey o = c :: rest /\ c <> dash) /\
  ~ In equalsSign (optionKey o) /\
  (short o = true -> length (optionKey o) = 1) /\
  optionValue o <> [] /\ ~ In equalsSign (optionValue o).

(** The value [sanitiseValue] keeps of a non-empty one. *)
Definition unquote (value : str) : str :=
  if stringRegexMatch value then removelast (tl value) else value.

Definition optionsOf (os : list optionText) : dict :=
  fold_left (fun d o => dict_set (optionKey o) (unquote (optionValue o)) d) os [].

(** The value of the last option of [os] written with the key [k]. *)
Definition lastValue (k : str) (os : list optionText) : option str :=
  fold_left (fun found o =>
               if str_eqb k (optionKey o) then Some (unquote (optionValue o)) else found)
            os None.

(** The value [process] reads for an option with a short and a long name. *)
Definition shortOrLong (shortName longName : str) (d : dict) : option str :=
  match dict_get shortName d with
  | Some v => Some v
  | None => dict_get longName d
  end.

(** ** Test vectors *)

Example parse_no_tokens : result [] cleared = Returns [].
Proof. reflexivity. Qed.

Example parse_plain_code :
  result [Ident "def"; Ident "f"; Tok T_other; Tok T_star; Tok T_dot] cleared = Returns [].
Proof. reflexivity. Qed.

(** ** Basic facts about the cursor *)

Lemma currentTokenOf_nth p : currentTokenOf p = nth_error (tokens p) (index p).
Proof.
  unfold currentTokenOf.
  destruct (Nat.ltb_spec (index p) (length (tokens p))) as [Hlt | Hge]; [reflexivity|].
  symmetry. now apply nth_error_None.
Qed.

Lemma currentTokenOf_Some p t :
  currentTokenOf p = Some t -> index p < length (tokens p).
Proof.
  rewrite currentTokenOf_nth. intros H.
  apply nth_error_Some. congruence.
Qed.

Lemma currentTokenOf_pending p : currentTokenOf p = hd_error (pending p).
Proof.
  rewrite currentTokenOf_nth. unfold pending.
  generalize (index p) as i. induction (tokens p) as [|x l IH]; intros [|i]; simpl; auto.
Qed.

Lemma pending_advance p x s :
  pending p = x :: s -> pending (advance 1 p) = s.
Proof.
  unfold pending, advance. simpl. rewrite Nat.add_1_r.
  generalize (index p) as i. induction (tokens p) as [|y l IH]; intros [|i] H; simpl in *;
    try discriminate.
  - now inversion H.
  - now apply IH.
Qed.

Lemma pending_length p : length (pending p) = remaining p.
Proof. unfold pending, remaining. apply length_skipn. Qed.

Lemma moved_refl p : moved p p.
Proof. unfold moved. auto. Qed.

Lemma moved_trans p q r : moved p q -> moved q r -> moved p r.
Proof. unfold moved. intros (A & B & C) (D & E & F). repeat split; try congruence; lia. Qed.

Lemma moved_advance k p : moved p (advance k p).
Proof. unfold moved, advance. simpl. repeat split; lia. Qed.

Lemma nextToken_eq p : nextToken p = (Returns (currentTokenOf (advance 1 p)), advance 1 p).
Proof. reflexivity. Qed.

(** ** Totality: the fuel of the loops is never exhausted *)

Section Totality.

Lemma dottedLoop_moved fuel :
  forall token name lookingForDot p o p',
    dottedLoop fuel token name lookingForDot p = (o, p') -> moved p p'.
Proof.
  induction fuel as [|fuel IH]; intros token name l p o p' H; simpl in H.
  - inversion H. apply moved_refl.
  - destruct l, token as [t|]; try destruct (type t);
      unfold ret, raise, bind in H; try rewrite nextToken_eq in H;
      try (inversion H; subst; apply moved_refl);
      apply IH in H; eapply moved_trans; eauto using moved_advance.
Qed.

(** Fuel above [remaining] is enough for the loop of
    [parseDottedIdentifier], and any larger amount gives the same run. *)
Lemma dottedLoop_total n :
  forall name lookingForDot p,
    remaining p < n ->
    fst (dottedLoop n (currentTokenOf p) name lookingForDot p) <> OutOfFuel /\
    forall m, n <= m ->
      dottedLoop m (currentTokenOf p) name lookingForDot p
      = dottedLoop n (currentTokenOf p) name lookingForDot p.
Proof.
  induction n as [|n IH]; intros name l p Hn; [lia|].
  assert (Hstep : forall t, currentTokenOf p = Some t -> remaining (advance 1 p) < n).
  { intros t Ht. apply currentTokenOf_Some in Ht.
    unfold remaining, advance in *. simpl. lia. }
  split.
  - simpl. destruct l, (currentTokenOf p) as [t|] eqn:Ht; try destruct (type t);
      unfold ret, raise, bind; try rewrite nextToken_eq; simpl; try discriminate;
      apply IH; eauto.
  - intros [|m] Hm; [lia|]. simpl.
    destruct l, (currentTokenOf p) as [t|] eqn:Ht; try destruct (type t);
      unfold ret, raise, bind; try rewrite nextToken_eq; try reflexivity;
      apply IH; eauto; lia.
Qed.

Lemma parseDottedIdentifier_moved p o p' :
  parseDottedIdentifier p = (o, p') ->
  moved p p' /\ o <> OutOfFuel /\
  (forall r, o = Returns r -> index p < length (tokens p)).
Proof.
  unfold parseDottedIdentifier, bind, currentToken.
  destruct (currentTokenOf p) as [t|] eqn:Ht.
  2:{ intros H. inversion H.
      split; [apply moved_refl | split; [discriminate | discriminate]]. }
  pose proof (currentTokenOf_Some _ _ Ht) as Hlt.
  destruct (type t);
    try (intros H; inversion H; subst;
         split; [apply moved_refl | split; [discriminate | auto]]).
  rewrite <- Ht.
  destruct (dottedLoop_total (S (loopFuel p)) "" false p) as [Hfuel _].
  { unfold loopFuel, remaining. lia. }
  destruct (dottedLoop (S (loopFuel p)) (currentTokenOf p) "" false p) as [[name| e |] q] eqn:Hloop;
    simpl in Hfuel; try congruence.
  - apply dottedLoop_moved in Hloop.
    destruct (name =? ""); intros H; inversion H; subst;
      (split; [assumption | split; [discriminate | auto]]).
  - apply dottedLoop_moved in Hloop.
    intros H; inversion H; subst.
    split; [assumption | split; [discriminate | auto]].
Qed.

(** What [parseImport] can do to the parser: it consumes at least the
    [import] token, never touches [tokens], and records at most one
    absolute import. *)
Lemma parseImport_step p o p' :
  parseImport p = (o, p') ->
  o <> OutOfFuel /\ tokens p' = tokens p /\ index p < index p' /\
  (o = Returns tt -> index p + 1 < length (tokens p)) /\
  (foundImports p' = foundImports p \/
   exists name, foundImports p' = foundImports p ++ [mkParsedImport name false]).
Proof.
  unfold parseImport, bind. rewrite nextToken_eq.
  destruct (parseDottedIdentifier (advance 1 p)) as [[name| e |] q] eqn:Hd;
    destruct (parseDottedIdentifier_moved _ _ _ Hd) as ((Ht & Hf & Hi) & Hfuel & Hret);
    simpl in *; try congruence.
  - unfold addImport. intros H. inversion H; subst; simpl.
    repeat split; try discriminate; try congruence; try lia.
    + intros _. now apply (Hret name).
    + right. exists name. now rewrite Hf.
  - intros H. inversion H; subst.
    repeat split; try discriminate; try congruence; try lia. now left.
Qed.

Lemma objectsLoop_total n :
  forall importedObjects p,
    remaining p < n ->
    (forall o p', objectsLoop n importedObjects p = (o, p') ->
                  moved p p' /\ o <> OutOfFuel) /\
    forall m, n <= m ->
      objectsLoop m importedObjects p = objectsLoop n importedObjects p.
Proof.
  induction n as [|n IH]; intros objs p Hn; [lia|].
  assert (Hstep : forall t o q,
             currentTokenOf p = Some t ->
             parseDottedIdentifier (advance 1 p) = (o, q) ->
             remaining q < n /\ moved p q).
  { intros t o q Ht Hq. apply currentTokenOf_Some in Ht.
    apply parseDottedIdentifier_moved in Hq. destruct Hq as (Hq & _).
    pose proof (moved_trans _ _ _ (moved_advance 1 p) Hq) as Hm.
    destruct Hq as (Hq1 & _ & Hq3).
    unfold remaining, advance in *. simpl in *. rewrite Hq1. split; [lia | assumption]. }
  split.
  - intros o p'. simpl. unfold bind, currentToken, ret.
    destruct (currentTokenOf p) as [t|] eqn:Ht.
    2:{ intros H. inversion H; subst. split; [apply moved_refl | discriminate]. }
    destruct (TokenType_eqb (type t) T_comma).
    2:{ intros H. inversion H; subst. split; [apply moved_refl | discriminate]. }
    rewrite nextToken_eq.
    destruct (parseDottedIdentifier (advance 1 p)) as [[obj| e |] q] eqn:Hq;
      pose proof (parseDottedIdentifier_moved _ _ _ Hq) as (Hmq & Hfuel & _);
      try congruence.
    + destruct (Hstep _ _ _ eq_refl eq_refl) as (Hr & Hm).
      intros H. apply (IH _ _ Hr) in H. destruct H as (H1 & H2).
      split; [eapply moved_trans; eauto | assumption].
    + intros H. inversion H; subst.
      split; [eapply moved_trans; eauto using moved_advance | discriminate].
  - intros [|m] Hm; [lia|]. simpl. unfold bind, currentToken, ret.
    destruct (currentTokenOf p) as [t|] eqn:Ht; [|reflexivity].
    destruct (TokenType_eqb (type t) T_comma); [|reflexivity].
    rewrite nextToken_eq.
    destruct (parseDottedIdentifier (advance 1 p)) as [[obj| e |] q] eqn:Hq; try reflexivity.
    destruct (Hstep _ _ _ eq_refl eq_refl) as (Hr & _).
    apply IH; [assumption | lia].
Qed.

Lemma parseImportedObjects_moved p o p' :
  parseImportedObjects p = (o, p') -> moved p p' /\ o <> OutOfFuel.
Proof.
  unfold parseImportedObjects, bind.
  destruct (parseDottedIdentifier p) as [[first| e |] q] eqn:Hq;
    pose proof (parseDottedIdentifier_moved _ _ _ Hq) as (Hmq & Hfuel & _);
    try congruence.
  - intros H.
    destruct (objectsLoop_total (loopFuel q) [first] q) as [Hl _].
    { unfold loopFuel, remaining. lia. }
    apply Hl in H. destruct H as (H1 & H2).
    split; [eapply moved_trans; eauto | assumption].
  - intros H. inversion H; subst. split; [assumption | discriminate].
Qed.

Lemma moved_recorded rel p p' : moved p p' -> recorded rel p p'.
Proof.
  intros (Ht & Hf & _). split; [assumption|].
  exists []. rewrite app_nil_r. auto.
Qed.

Lemma recorded_trans rel p q r :
  recorded rel p q -> recorded rel q r -> recorded rel p r.
Proof.
  intros (Ht & l & Hl & Hall) (Ht' & l' & Hl' & Hall').
  split; [congruence|].
  exists (l ++ l'). rewrite Hl', Hl, app_assoc. split; [reflexivity|].
  apply Forall_app. auto.
Qed.

Lemma addEach_eq rootModuleName rel importedObjects :
  forall p,
    addEach rootModuleName rel importedObjects p
    = (Returns tt,
       mkParser (foundImports p ++
                 map (fun obj =>
                        mkParsedImport
                          (Some (rootModuleName ++ "." ++ pystr obj)%string) rel)
                     importedObjects)
                (tokens p) (index p)).
Proof.
  induction importedObjects as [|obj rest IH]; intros p; simpl.
  - unfold ret. rewrite app_nil_r. now destruct p.
  - unfold bind, addImport. rewrite IH. simpl. now rewrite <- app_assoc.
Qed.

(** The relative branch of [parseFrom]: the dot that made the import
    relative is still the current token when the root name is parsed, so
    the rule raises before anything is recorded. *)
Lemma parseFrom_relative_raises p t :
  currentTokenOf (advance 1 p) = Some t -> type t = T_dot ->
  parseFrom p = (Raises MustStartWithIdentifier, advance 1 p).
Proof.
  intros Ht Hty.
  unfold parseFrom, fromLookahead, bind. rewrite nextToken_eq, Ht, Hty. simpl.
  unfold ret, parseDottedIdentifier, bind, currentToken.
  now rewrite Ht, Hty.
Qed.

(** Entered at a [from] token, as [parse] does, the rule always raises: in
    the absolute branch the cursor is rewound onto the [from] token
    itself, which cannot start a dotted identifier. *)
Lemma parseFrom_raises p t :
  currentTokenOf p = Some t -> type t = T_from ->
  exists e p', parseFrom p = (Raises e, p') /\ moved p p' /\
               (e = UnexpectedEndOfTokens \/ e = MustStartWithIdentifier).
Proof.
  intros Ht Hty.
  destruct (currentTokenOf (advance 1 p)) as [t'|] eqn:Ht'.
  2:{ exists UnexpectedEndOfTokens, (advance 1 p).
      unfold parseFrom, fromLookahead, bind. rewrite nextToken_eq, Ht'.
      auto using moved_advance. }
  destruct (TokenType_eqb (type t') T_dot) eqn:Hdot.
  - assert (Hty' : type t' = T_dot) by (destruct (type t'); simpl in Hdot; congruence).
    exists MustStartWithIdentifier, (advance 1 p).
    rewrite (parseFrom_relative_raises _ _ Ht' Hty'). auto using moved_advance.
  - set (q := mkParser (foundImports (advance 1 p)) (tokens (advance 1 p))
                       (index (advance 1 p) - 1)).
    assert (Hq : currentTokenOf q = Some t).
    { rewrite currentTokenOf_nth in *. unfold q, advance. simpl.
      now replace (index p + 1 - 1) with (index p) by lia. }
    exists MustStartWithIdentifier, q.
    unfold parseFrom, fromLookahead, bind. rewrite nextToken_eq, Ht', Hdot.
    fold q. unfold parseDottedIdentifier, bind, currentToken. rewrite Hq, Hty.
    split; [reflexivity|]. split; [|auto].
    unfold moved, q, advance. simpl. repeat split; lia.
Qed.

(** What follows the root name always raises: once the current token is
    known to be [import], [parseImportedObjects] starts on that very token. *)
Lemma fromAfterRoot_raises rootModuleName rel p :
  exists e, fromAfterRoot rootModuleName rel p = (Raises e, p).
Proof.
  destruct (falsy rootModuleName) eqn:Hroot.
  { eexists. unfold fromAfterRoot. rewrite Hroot. reflexivity. }
  destruct (currentTokenOf p) as [t|] eqn:Ht.
  2:{ eexists. unfold fromAfterRoot, bind, currentToken. rewrite Hroot, Ht. reflexivity. }
  destruct (TokenType_eqb (type t) T_import) eqn:Himp.
  2:{ eexists. unfold fromAfterRoot, bind, currentToken. rewrite Hroot, Ht.
      cbv beta iota. rewrite Himp. reflexivity. }
  assert (Hty : type t = T_import) by (destruct (type t); simpl in Himp; congruence).
  assert (Hobjs : parseImportedObjects p = (Raises MustStartWithIdentifier, p)).
  { unfold parseImportedObjects, bind, parseDottedIdentifier, bind, currentToken.
    now rewrite Ht, Hty. }
  exists MustStartWithIdentifier.
  unfold fromAfterRoot, bind, currentToken. rewrite Hroot, Ht.
  cbv beta iota. rewrite Himp. change (negb true) with false.
  cbv beta iota. now rewrite Hobjs.
Qed.

(** Every path through [parseFrom] raises, and nothing is recorded on the
    way. *)
Lemma parseFrom_always_raises p :
  exists e p', parseFrom p = (Raises e, p') /\ moved p p'.
Proof.
  unfold parseFrom, fromLookahead, bind at 1 2. rewrite nextToken_eq.
  destruct (currentTokenOf (advance 1 p)) as [t|] eqn:Ht.
  2:{ exists UnexpectedEndOfTokens, (advance 1 p). auto using moved_advance. }
  destruct (TokenType_eqb (type t) T_dot) eqn:Hdot.
  - assert (Hty : type t = T_dot) by (destruct (type t); simpl in Hdot; congruence).
    exists MustStartWithIdentifier, (advance 1 p).
    unfold ret, bind, parseDottedIdentifier, bind, currentToken. rewrite Ht, Hty.
    auto using moved_advance.
  - set (q := mkParser (foundImports (advance 1 p)) (tokens (advance 1 p))
                       (index (advance 1 p) - 1)).
    assert (Hpq : moved p q).
    { unfold moved, q, advance. simpl. repeat split; lia. }
    unfold bind.
    destruct (parseDottedIdentifier q) as [[root| e |] r] eqn:Hr;
      pose proof (parseDottedIdentifier_moved _ _ _ Hr) as (Hmr & Hfuel & _);
      try congruence.
    + destruct (fromAfterRoot_raises root false r) as (e & He).
      exists e, r. rewrite He. split; [reflexivity | eapply moved_trans; eauto].
    + exists e, r. split; [reflexivity | eapply moved_trans; eauto].
Qed.

Lemma parseImport_recorded p o p' :
  parseImport p = (o, p') -> recorded false p p'.
Proof.
  intros H. apply parseImport_step in H.
  destruct H as (_ & Ht & _ & _ & [Hf | (name & Hf)]); split; try assumption.
  - exists []. rewrite app_nil_r. auto.
  - exists [mkParsedImport name false]. split; [assumption|].
    constructor; [reflexivity | constructor].
Qed.

Lemma parseLoop_other fuel t :
  type t <> T_import -> type t <> T_from ->
  parseLoop (S fuel) (Some t)
  = (token' <- nextToken ;; parseLoop fuel token').
Proof. intros Hi Hf. simpl. destruct (type t); congruence. Qed.

Lemma parseLoop_total n :
  forall token p,
    loopToken token p -> remaining p < n ->
    (forall o p', parseLoop n token p = (o, p') ->
                  o <> OutOfFuel /\ recorded false p p') /\
    forall m, n <= m -> parseLoop m token p = parseLoop n token p.
Proof.
  induction n as [|n IH]; intros token p Hinv Hn; [lia|].
  destruct token as [t|].
  2:{ split.
      - simpl. intros o p' H. inversion H; subst.
        split; [discriminate | apply moved_recorded, moved_refl].
      - intros [|m] _; reflexivity. }
  destruct (TokenType_eqb (type t) T_import) eqn:Himp;
    [|destruct (TokenType_eqb (type t) T_from) eqn:Hfrom].
  - (* stuck on an [import] token *)
    assert (Hty : type t = T_import) by (destruct (type t); simpl in Himp; congruence).
    assert (Hnext : forall q, parseImport p = (Returns tt, q) ->
                              loopToken (Some t) q /\ remaining q < n).
    { intros q Hq. apply parseImport_step in Hq.
      destruct Hq as (_ & Htk & Hidx & Hlen & _). specialize (Hlen eq_refl).
      split; [right; eauto|]. unfold remaining in *. rewrite Htk. lia. }
    split.
    + intros o p'. simpl. rewrite Hty. unfold bind.
      destruct (parseImport p) as [[[]| e |] q] eqn:Hq;
        pose proof (parseImport_recorded _ _ _ Hq) as Hrec;
        pose proof (parseImport_step _ _ _ Hq) as (Hfuel & _);
        try congruence.
      * destruct (Hnext _ eq_refl) as (Hinv' & Hrem).
        intros H. apply (IH _ _ Hinv' Hrem) in H. destruct H as (H1 & H2).
        split; [assumption | eapply recorded_trans; eauto].
      * intros H. inversion H; subst. split; [discriminate | assumption].
    + intros [|m] Hm; [lia|]. simpl. rewrite Hty. unfold bind.
      destruct (parseImport p) as [[[]| e |] q] eqn:Hq; try reflexivity.
      destruct (Hnext _ eq_refl) as (Hinv' & Hrem).
      apply IH; [assumption | assumption | lia].
  - (* a [from] token: it is the current token, and the rule raises *)
    assert (Hty : type t = T_from) by (destruct (type t); simpl in Hfrom; congruence).
    assert (Hcur : currentTokenOf p = Some t).
    { destruct Hinv as [Hc | (t' & Ht' & Hty')]; [now symmetry|].
      inversion Ht'; subst. congruence. }
    destruct (parseFrom_raises _ _ Hcur Hty) as (e & q & Hq & Hm & _).
    split.
    + intros o p'. simpl. rewrite Hty. unfold bind. rewrite Hq.
      intros H. inversion H; subst.
      split; [discriminate | now apply moved_recorded].
    + intros [|m] Hm'; [lia|]. simpl. rewrite Hty. unfold bind. now rewrite Hq.
  - (* any other token is stepped over *)
    assert (Hi : type t <> T_import) by (intros E; rewrite E in Himp; discriminate).
    assert (Hf : type t <> T_from) by (intros E; rewrite E in Hfrom; discriminate).
    assert (Hcur : currentTokenOf p = Some t).
    { destruct Hinv as [Hc | (t' & Ht' & Hty')]; [now symmetry|].
      inversion Ht'; subst. congruence. }
    apply currentTokenOf_Some in Hcur.
    assert (Hrem : remaining (advance 1 p) < n).
    { unfold remaining, advance in *. simpl. lia. }
    assert (Hinv' : loopToken (currentTokenOf (advance 1 p)) (advance 1 p)) by now left.
    split.
    + intros o p'. rewrite (parseLoop_other _ _ Hi Hf). unfold bind.
      rewrite nextToken_eq. intros H.
      apply (IH _ _ Hinv' Hrem) in H. destruct H as (H1 & H2).
      split; [assumption|].
      eapply recorded_trans; [apply moved_recorded, (moved_advance 1)|eassumption].
    + intros [|m] Hm; [lia|]. rewrite !(parseLoop_other _ _ Hi Hf). unfold bind.
      rewrite nextToken_eq. apply IH; [assumption | assumption | lia].
Qed.

Lemma parse_nonempty toks p :
  toks <> [] ->
  parse toks p
  = match parseLoop (loopFuel (started toks)) (currentTokenOf (started toks))
                    (started toks) with
    | (Returns _, r) => (Returns (foundImports r), cleared)
    | (Raises e, r) => (Raises e, r)
    | (OutOfFuel, r) => (OutOfFuel, r)
    end.
Proof.
  destruct toks as [|t0 toks]; [congruence|]. intros _.
  unfold parse. change (Nat.eqb (length (t0 :: toks)) 0) with false. cbv iota.
  unfold bind at 1 2 3 4 5 6, clear, currentToken, ret.
  change (mkParser (foundImports cleared) (t0 :: toks) (index cleared))
    with (started (t0 :: toks)).
  destruct (parseLoop (loopFuel (started (t0 :: toks)))
                      (currentTokenOf (started (t0 :: toks)))
                      (started (t0 :: toks))) as [[[]| e |] r]; reflexivity.
Qed.

Lemma parse_empty p : parse [] p = (Returns [], p).
Proof. reflexivity. Qed.

Lemma parseLoop_started toks o r :
  parseLoop (loopFuel (started toks)) (currentTokenOf (started toks)) (started toks)
  = (o, r) ->
  o <> OutOfFuel /\ recorded false (started toks) r.
Proof.
  apply parseLoop_total; [now left | unfold loopFuel, remaining; lia].
Qed.

(** [parse] never runs out of fuel: every call returns or raises. *)
Lemma parse_total toks p : result toks p <> OutOfFuel.
Proof.
  unfold result. destruct toks as [|t0 toks]; [discriminate|].
  rewrite parse_nonempty by discriminate.
  destruct (parseLoop _ _ _) as [[[]| e |] r] eqn:Hr; simpl; try discriminate.
  apply parseLoop_started in Hr. tauto.
Qed.

(** Whatever the outcome, a call on a non-empty token sequence records
    absolute imports only. *)
Lemma parse_recorded toks p o p' :
  toks <> [] -> parse toks p = (o, p') ->
  match o with
  | Returns r => Forall (fun i => relative i = false) r
  | _ => Forall (fun i => relative i = false) (foundImports p')
  end.
Proof.
  intros Hne. rewrite parse_nonempty by assumption.
  destruct (parseLoop _ _ _) as [[[]| e |] r] eqn:Hr;
    apply parseLoop_started in Hr; destruct Hr as (Hfuel & _ & l & Hfound & Hall);
    simpl in Hfound; intros H; inversion H; subst; try congruence;
    now rewrite Hfound.
Qed.

End Totality.

(** ** Scanning: how the loops walk over the pending tokens *)

Section Scanning.

Lemma pending_cons p x s :
  pending p = x :: s ->
  currentTokenOf p = Some x /\ pending (advance 1 p) = s /\
  remaining (advance 1 p) < remaining p.
Proof.
  intros H. split; [|split].
  - now rewrite currentTokenOf_pending, H.
  - eapply pending_advance; eauto.
  - assert (Hc : currentTokenOf p = Some x) by now rewrite currentTokenOf_pending, H.
    apply currentTokenOf_Some in Hc. unfold remaining, advance. simpl. lia.
Qed.

Lemma pending_nil p : pending p = [] -> currentTokenOf p = None.
Proof. intros H. now rewrite currentTokenOf_pending, H. Qed.

Lemma pending_at found before after :
  pending (mkParser found (before ++ after) (length before)) = after.
Proof.
  unfold pending. simpl. rewrite skipn_app, skipn_all, Nat.sub_diag. reflexivity.
Qed.

(** The top-level loop steps over a run of ordinary tokens. *)
Lemma parseLoop_skip pre :
  forall n p suffix,
    pending p = pre ++ suffix -> Forall ordinary pre -> remaining p < n ->
    exists p',
      parseLoop n (currentTokenOf p) p
      = parseLoop (n - length pre) (currentTokenOf p') p' /\
      pending p' = suffix /\ tokens p' = tokens p /\
      foundImports p' = foundImports p /\ remaining p' < n - length pre /\
      index p' = index p + length pre.
Proof.
  induction pre as [|t pre IH]; intros n p suffix Hp Hall Hn.
  - exists p. rewrite Nat.sub_0_r, Nat.add_0_r. auto 6.
  - destruct n as [|n]; [lia|].
    inversion Hall as [|? ? [Hi Hf] Hall']; subst.
    destruct (pending_cons _ _ _ Hp) as (Hc & Hs & Hr).
    destruct (IH n (advance 1 p) suffix Hs Hall' ltac:(lia))
      as (p' & Heq & Hp' & Ht & Hfi & Hr' & Hidx).
    exists p'. rewrite Hc, (parseLoop_other _ _ Hi Hf).
    unfold bind. rewrite nextToken_eq. cbn [length].
    repeat split; try assumption.
    rewrite Hidx. unfold advance. simpl. lia.
Qed.

Lemma dottedLoop_dot n t name p :
  type t = T_dot ->
  dottedLoop (S n) (Some t) name true p
  = dottedLoop n (currentTokenOf (advance 1 p)) (name ++ ".")%string false
               (advance 1 p).
Proof. intros H. simpl. now rewrite H. Qed.

Lemma dottedLoop_identifier n t name p :
  type t = T_identifier ->
  dottedLoop (S n) (Some t) name false p
  = dottedLoop n (currentTokenOf (advance 1 p)) (name ++ value t)%string true
               (advance 1 p).
Proof. intros H. simpl. now rewrite H. Qed.

(** The loop of [parseDottedIdentifier], looking for a dot, consumes a run
    of [.identifier] pairs and appends them to [name]. *)
Lemma dottedLoop_dotted ids :
  forall n name p suffix,
    pending p = dotted ids ++ suffix -> remaining p < n ->
    exists p',
      dottedLoop n (currentTokenOf p) name true p
      = dottedLoop (n - 2 * length ids) (currentTokenOf p')
                   (dottedName name ids) true p' /\
      pending p' = suffix /\ moved p p' /\ remaining p' < n - 2 * length ids.
Proof.
  induction ids as [|s ids IH]; intros n name p suffix Hp Hn.
  - exists p. simpl. rewrite Nat.sub_0_r. auto using moved_refl.
  - simpl in Hp.
    destruct (pending_cons _ _ _ Hp) as (Hc & Hs & Hr).
    destruct (pending_cons _ _ _ Hs) as (Hc' & Hs' & Hr').
    destruct n as [|[|n]]; try lia.
    destruct (IH n ((name ++ ".") ++ s)%string (advance 1 (advance 1 p)) suffix Hs'
                 ltac:(lia)) as (p' & Heq & Hp' & Hm & Hrem).
    exists p'.
    replace (S (S n) - 2 * length (s :: ids)) with (n - 2 * length ids)
      by (cbn [length]; lia).
    split; [|split; [assumption | split; [|assumption]]].
    + rewrite Hc, dottedLoop_dot, Hc', dottedLoop_identifier by reflexivity.
      exact Heq.
    + eapply moved_trans; [|exact Hm].
      eapply moved_trans; apply moved_advance.
Qed.

(** [parseDottedIdentifier] on [a.b.c...]: the identifiers and dots are
    consumed, and the loop goes on, looking for a dot, on what follows. *)
Lemma parseDottedIdentifier_dotted a ids suffix p :
  pending p = Ident a :: dotted ids ++ suffix ->
  exists n q,
    parseDottedIdentifier p
    = match dottedLoop n (currentTokenOf q) (dottedName a ids) true q with
      | (Returns name, r) =>
          (Returns (if (name =? "")%string then None else Some name), r)
      | (Raises e, r) => (Raises e, r)
      | (OutOfFuel, r) => (OutOfFuel, r)
      end /\
    pending q = suffix /\ moved p q /\ remaining q < n.
Proof.
  intros Hp. destruct (pending_cons _ _ _ Hp) as (Hc & Hs & Hr).
  destruct (dottedLoop_dotted ids (loopFuel p) a (advance 1 p) suffix Hs)
    as (q & Heq & Hq & Hm & Hrem).
  { unfold loopFuel. fold (remaining p). lia. }
  exists (loopFuel p - 2 * length ids), q.
  split; [|split; [assumption | split; [|assumption]]].
  - unfold parseDottedIdentifier, bind, currentToken. rewrite Hc.
    cbv beta iota. change (type (Ident a)) with T_identifier. cbv beta iota.
    rewrite dottedLoop_identifier by reflexivity.
    change ("" ++ value (Ident a))%string with a. rewrite Heq.
    destruct (dottedLoop (loopFuel p - 2 * length ids) (currentTokenOf q)
                         (dottedName a ids) true q) as [[name| e |] r];
      try reflexivity.
    unfold ret. now destruct (name =? "")%string.
  - eapply moved_trans; [apply moved_advance | exact Hm].
Qed.

Lemma parseDottedIdentifier_consecutive_dots a ids rest p :
  pending p = Ident a :: dotted ids ++ Tok T_dot :: Tok T_dot :: rest ->
  fst (parseDottedIdentifier p) = Raises ConsecutiveDotOperators.
Proof.
  intros Hp.
  destruct (parseDottedIdentifier_dotted _ _ _ _ Hp) as (n & q & Heq & Hq & _ & Hrem).
  rewrite Heq.
  destruct (pending_cons _ _ _ Hq) as (Hc & Hs & Hr).
  destruct (pending_cons _ _ _ Hs) as (Hc' & _ & _).
  destruct n as [|[|n]]; try lia.
  rewrite Hc, dottedLoop_dot, Hc' by reflexivity. reflexivity.
Qed.

Lemma parseDottedIdentifier_trailing_dot a ids p :
  pending p = Ident a :: dotted ids ++ [Tok T_dot] ->
  fst (parseDottedIdentifier p) = Raises TrailingDotOperator.
Proof.
  intros Hp.
  destruct (parseDottedIdentifier_dotted _ _ _ _ Hp) as (n & q & Heq & Hq & _ & Hrem).
  rewrite Heq.
  destruct (pending_cons _ _ _ Hq) as (Hc & Hs & Hr).
  apply pending_nil in Hs.
  destruct n as [|[|n]]; try lia.
  rewrite Hc, dottedLoop_dot, Hs by reflexivity. reflexivity.
Qed.

Lemma pending_started toks : pending (started toks) = toks.
Proof. reflexivity. Qed.

(** An error of [parseDottedIdentifier] in the first [import] statement of
    the input reaches the caller of [parse]. *)
Lemma parse_import_raises pre stmt e p :
  Forall ordinary pre ->
  (forall q, pending q = stmt -> fst (parseDottedIdentifier q) = Raises e) ->
  result (pre ++ Tok T_import :: stmt) p = Raises e.
Proof.
  intros Hpre Hstmt. unfold result.
  rewrite parse_nonempty by (destruct pre; discriminate).
  set (toks := pre ++ Tok T_import :: stmt).
  destruct (parseLoop_skip pre (loopFuel (started toks)) (started toks)
                           (Tok T_import :: stmt) (pending_started toks) Hpre)
    as (p' & Heq & Hp' & _ & _ & Hrem & _).
  { unfold loopFuel. fold (remaining (started toks)). lia. }
  rewrite Heq.
  destruct (pending_cons _ _ _ Hp') as (Hc & Hs & _).
  destruct (loopFuel (started toks) - length pre) as [|k]; [lia|].
  rewrite Hc. simpl parseLoop. unfold bind at 1, parseImport, bind at 1.
  rewrite nextToken_eq. unfold bind at 1.
  specialize (Hstmt _ Hs).
  destruct (parseDottedIdentifier (advance 1 p')) as [o r].
  simpl in Hstmt. subst o. reflexivity.
Qed.

(** The top-level loop steps over ordinary tokens up to the end. *)
Lemma parse_ordinary toks p :
  Forall ordinary toks -> result toks p = Returns [].
Proof.
  intros Hall. destruct toks as [|t0 toks]; [reflexivity|].
  unfold result. rewrite parse_nonempty by discriminate.
  set (l := t0 :: toks) in *.
  destruct (parseLoop_skip l (loopFuel (started l)) (started l) [])
    as (p' & Heq & Hp' & _ & Hf & _ & _).
  { now rewrite app_nil_r. }
  { assumption. }
  { unfold loopFuel. fold (remaining (started l)). lia. }
  rewrite Heq, (pending_nil _ Hp').
  destruct (loopFuel (started l) - length l); simpl; now rewrite Hf.
Qed.

(** Once the loop of [parse] holds an [import] token it never leaves:
    [token] is not reassigned, [parseImport] is called again and again,
    and the call made when the tokens are exhausted raises. *)
Lemma parseLoop_stuck n :
  forall t p,
    type t = T_import -> remaining p < n ->
    exists e q, parseLoop n (Some t) p = (Raises e, q).
Proof.
  induction n as [|n IH]; intros t p Hty Hn; [lia|].
  simpl. rewrite Hty. unfold bind.
  destruct (parseImport p) as [[[]| e |] q] eqn:Hq;
    pose proof (parseImport_step _ _ _ Hq) as (Hfuel & Htk & Hidx & Hlen & _).
  - apply IH; [assumption|]. specialize (Hlen eq_refl).
    unfold remaining in *. rewrite Htk. lia.
  - eauto.
  - congruence.
Qed.

(** [parse] returns normally exactly on the inputs without [import] and
    [from] tokens, and then returns no record. *)
Lemma parse_returns_iff toks p r :
  result toks p = Returns r <-> Forall ordinary toks /\ r = [].
Proof.
  split.
  2:{ intros (Hall & ->). now apply parse_ordinary. }
  intros Hres.
  assert (Hall : Forall ordinary toks).
  2:{ split; [assumption|]. rewrite (parse_ordinary _ p Hall) in Hres. congruence. }
  assert (Hsplit : forall l, (Forall ordinary l) \/
                             exists pre t rest, l = pre ++ t :: rest /\ Forall ordinary pre /\
                                                (type t = T_import \/ type t = T_from)).
  { induction l as [|x l [IH | (pre & t & rest & -> & Hpre & Ht)]].
    - left. constructor.
    - destruct (type x) eqn:Hx;
        try (left; constructor; [split; congruence | assumption]);
        right; exists [], x, l; simpl; auto.
    - destruct (type x) eqn:Hx;
        try (right; exists (x :: pre), t, rest; simpl;
             split; [reflexivity | split; [constructor; [split; congruence | assumption] | assumption]]);
        right; exists [], x, (pre ++ t :: rest); simpl; auto. }
  destruct (Hsplit toks) as [Hord | (pre & t & rest & -> & Hpre & Ht)]; [assumption|].
  exfalso. unfold result in Hres.
  rewrite parse_nonempty in Hres by (destruct pre; discriminate).
  set (toks := pre ++ t :: rest) in *.
  destruct (parseLoop_skip pre (loopFuel (started toks)) (started toks)
                           (t :: rest) (pending_started toks) Hpre)
    as (p' & Heq & Hp' & _ & _ & Hrem & _).
  { unfold loopFuel. fold (remaining (started toks)). lia. }
  rewrite Heq in Hres.
  destruct (pending_cons _ _ _ Hp') as (Hc & _ & _). rewrite Hc in Hres.
  destruct Ht as [Ht | Ht].
  - destruct (parseLoop_stuck _ t p' Ht Hrem) as (e & q & Hq).
    rewrite Hq in Hres. discriminate.
  - destruct (loopFuel (started toks) - length pre) as [|k]; [lia|].
    destruct (parseFrom_raises _ _ Hc Ht) as (e & q & Hq & _).
    simpl in Hres. rewrite Ht in Hres. unfold bind in Hres. rewrite Hq in Hres.
    discriminate.
Qed.

(** Hence a single [import] or [from] token anywhere in the input makes
    [parse] raise. *)
Lemma parse_keyword_raises toks p :
  ~ Forall ordinary toks -> exists e, result toks p = Raises e.
Proof.
  intros Hkw. destruct (result toks p) as [r| e |] eqn:Hres.
  - apply parse_returns_iff in Hres. tauto.
  - eauto.
  - now apply parse_total in Hres.
Qed.

Lemma parseLoop_ordinary toks :
  Forall ordinary toks ->
  parseLoop (loopFuel (started toks)) (currentTokenOf (started toks)) (started toks)
  = (Returns tt, mkParser [] toks (length toks)).
Proof.
  intros Hall.
  destruct (parseLoop_skip toks (loopFuel (started toks)) (started toks) [])
    as (p' & Heq & Hp' & Ht & Hf & _ & Hidx).
  { now rewrite app_nil_r. }
  { assumption. }
  { unfold loopFuel. fold (remaining (started toks)). lia. }
  rewrite Heq, (pending_nil _ Hp').
  destruct p' as [f' t' i']. simpl in Ht, Hf, Hidx. subst.
  destruct (loopFuel (started toks) - length toks); reflexivity.
Qed.

(** A name that is not empty stays so through the loop of
    [parseDottedIdentifier]. *)
Lemma append_nonempty (a b : string) : a <> "" -> (a ++ b)%string <> "".
Proof. destruct a; [congruence | discriminate]. Qed.

Lemma dottedLoop_nonempty fuel :
  forall token name lookingForDot p r p',
    name <> "" ->
    dottedLoop fuel token name lookingForDot p = (Returns r, p') -> r <> "".
Proof.
  induction fuel as [|fuel IH]; intros token name l p r p' Hne H; simpl in H.
  - discriminate.
  - destruct l, token as [t|]; try destruct (type t);
      unfold ret, raise, bind in H; try rewrite nextToken_eq in H;
      try (inversion H; subst; assumption); try discriminate;
      eapply IH; try exact H; now apply append_nonempty.
Qed.

(** [parseDottedIdentifier] returns [None] only when it starts on an
    identifier token whose text is empty. *)
Lemma parseDottedIdentifier_None p p' :
  parseDottedIdentifier p = (Returns None, p') ->
  exists t, currentTokenOf p = Some t /\ type t = T_identifier /\ value t = "".
Proof.
  unfold parseDottedIdentifier, bind, currentToken.
  destruct (currentTokenOf p) as [t|]; [|discriminate].
  destruct (type t) eqn:Hty; try discriminate.
  intros H. exists t. split; [reflexivity | split; [assumption|]].
  destruct (value t) as [|c v] eqn:Hv; [reflexivity | exfalso].
  rewrite dottedLoop_identifier in H by assumption.
  destruct (dottedLoop _ _ _ _ _) as [[name| e |] q] eqn:Hloop; try discriminate.
  apply dottedLoop_nonempty in Hloop.
  - destruct name; [congruence | discriminate].
  - rewrite Hv. discriminate.
Qed.

End Scanning.

(** ** The behaviour of [parse] *)

(** *** From-imports *)

(** C1.  On the tokens of [from a import b] the call does not return the
    record [a.b]: the look-ahead of [parseFrom] rewinds the cursor onto the
    [from] token itself, where [parseDottedIdentifier] raises, and nothing
    is recorded. *)
Theorem from_a_import_b_raises (p : ImportParser) :
  parse [Tok T_from; Ident "a"; Tok T_import; Ident "b"] p
  = (Raises MustStartWithIdentifier,
     mkParser [] [Tok T_from; Ident "a"; Tok T_import; Ident "b"] 0).
Proof. reflexivity. Qed.

(** C2, as stated, fails: on the tokens of [from . import h] the call does
    not return the single relative record [h]. *)
Lemma from_dot_import_h_not_recorded :
  result [Tok T_from; Tok T_dot; Tok T_import; Ident "h"] cleared
  <> Returns [mkParsedImport (Some "h") true].
Proof. discriminate. Qed.

(** C2, amended.  On the tokens of [from . import h] the call raises a
    [ParseError], whatever the parser held before, and no import is
    recorded: a from-import needs a root module identifier. *)
Theorem from_dot_import_h_raises (p : ImportParser) :
  (exists e, result [Tok T_from; Tok T_dot; Tok T_import; Ident "h"] p = Raises e) /\
  foundImports (snd (parse [Tok T_from; Tok T_dot; Tok T_import; Ident "h"] p)) = [].
Proof. split; [eexists|]; reflexivity. Qed.

(** C3.  On the tokens of [from g import dummy, *] the call does not return
    the record [g]: it raises like every other from-import, before the list
    of imported objects is read. *)
Theorem from_g_import_wildcard_raises (p : ImportParser) :
  parse [Tok T_from; Ident "g"; Tok T_import; Ident "dummy"; Tok T_comma; Tok T_star] p
  = (Raises MustStartWithIdentifier,
     mkParser []
       [Tok T_from; Ident "g"; Tok T_import; Ident "dummy"; Tok T_comma; Tok T_star] 0).
Proof. reflexivity. Qed.

(** C4.  Every record of a call that returns is absolute, and so is every
    record a call on a non-empty input leaves in [foundImports], whether it
    returns or raises.  The reason is [parseFrom]: every path through it
    raises with nothing recorded, the relative branch on the dot that was
    looked at. *)
Theorem parse_records_absolute_only (toks : list Token) (p : ImportParser) :
  (forall r, result toks p = Returns r -> Forall absolute r) /\
  (toks <> [] -> Forall absolute (foundImports (snd (parse toks p)))) /\
  (exists e p', parseFrom p = (Raises e, p') /\ foundImports p' = foundImports p) /\
  (forall t, currentTokenOf (advance 1 p) = Some t -> type t = T_dot ->
             parseFrom p = (Raises MustStartWithIdentifier, advance 1 p)).
Proof.
  split; [|split; [|split]].
  - intros r Hr. apply parse_returns_iff in Hr. destruct Hr as (_ & ->). constructor.
  - intros Hne. destruct (parse toks p) as [o p'] eqn:Hp.
    pose proof (parse_recorded _ _ _ _ Hne Hp) as Hrec.
    destruct o as [r| e |]; simpl; try assumption.
    rewrite parse_nonempty in Hp by assumption.
    destruct (parseLoop _ _ _) as [[[]| e |] q]; inversion Hp. constructor.
  - destruct (parseFrom_always_raises p) as (e & p' & Hp' & _ & Hf & _). eauto.
  - apply parseFrom_relative_raises.
Qed.

Lemma parse_records_absolute_only_witness :
  (result [Ident "x"; Tok T_other] cleared = Returns [] /\ Forall absolute []) /\
  ([Tok T_import; Ident "a"; Tok T_comma; Ident "b"] <> [] /\
   Forall absolute
     (foundImports
        (snd (parse [Tok T_import; Ident "a"; Tok T_comma; Ident "b"] cleared)))) /\
  (currentTokenOf
     (advance 1 (started [Tok T_from; Tok T_dot; Ident "k"; Tok T_import; Ident "l"]))
   = Some (Tok T_dot) /\
   parseFrom (started [Tok T_from; Tok T_dot; Ident "k"; Tok T_import; Ident "l"])
   = (Raises MustStartWithIdentifier,
      advance 1 (started [Tok T_from; Tok T_dot; Ident "k"; Tok T_import; Ident "l"]))).
Proof.
  split; [|split].
  - split; [reflexivity|].
    apply (proj1 (parse_records_absolute_only [Ident "x"; Tok T_other] cleared)).
    reflexivity.
  - split; [discriminate|].
    apply (proj1 (proj2 (parse_records_absolute_only
                           [Tok T_import; Ident "a"; Tok T_comma; Ident "b"] cleared))).
    discriminate.
  - split; [reflexivity|].
    apply (proj2 (proj2 (proj2 (parse_records_absolute_only []
             (started [Tok T_from; Tok T_dot; Ident "k"; Tok T_import; Ident "l"]))))
             (Tok T_dot)); reflexivity.
Defined.

(** *** Absolute imports *)

(** C5.  On the tokens of [import a.b.c] the call records [a.b.c] and then
    raises instead of returning it: the loop of [parse] still holds the
    [import] token and calls [parseImport] again, past the end of the
    tokens. *)
Theorem import_a_b_c_raises (p : ImportParser) :
  parse [Tok T_import; Ident "a"; Tok T_dot; Ident "b"; Tok T_dot; Ident "c"] p
  = (Raises UnexpectedEndOfTokens,
     mkParser [mkParsedImport (Some "a.b.c") false]
       [Tok T_import; Ident "a"; Tok T_dot; Ident "b"; Tok T_dot; Ident "c"] 7).
Proof. reflexivity. Qed.

(** C6.  On the tokens of [import a, b] the call records [a], re-enters
    [parseImport] on the comma, records [b] as well, and raises on the third
    entry instead of returning the single record [a]. *)
Theorem import_a_comma_b_raises (p : ImportParser) :
  parse [Tok T_import; Ident "a"; Tok T_comma; Ident "b"] p
  = (Raises UnexpectedEndOfTokens,
     mkParser [mkParsedImport (Some "a") false; mkParsedImport (Some "b") false]
       [Tok T_import; Ident "a"; Tok T_comma; Ident "b"] 5).
Proof. reflexivity. Qed.

(** *** Dotted identifiers *)

(** C7.  A dotted identifier [a.b...] followed by two dots, or ending the
    input on a dot, makes [parseDottedIdentifier] raise; when it is the
    module of the first [import] statement of the input, [parse] raises the
    same error. *)
Theorem dotted_identifier_dot_errors
        (pre : list Token) (a : string) (ids : list string) (rest : list Token)
        (found : list ParsedImport) (p : ImportParser)
        (Hpre : Forall ordinary pre) :
  fst (parseDottedIdentifier
         (mkParser found
            (pre ++ Ident a :: dotted ids ++ Tok T_dot :: Tok T_dot :: rest)
            (length pre)))
  = Raises ConsecutiveDotOperators /\
  fst (parseDottedIdentifier
         (mkParser found (pre ++ Ident a :: dotted ids ++ [Tok T_dot]) (length pre)))
  = Raises TrailingDotOperator /\
  result (pre ++ Tok T_import :: Ident a :: dotted ids ++ Tok T_dot :: Tok T_dot :: rest) p
  = Raises ConsecutiveDotOperators /\
  result (pre ++ Tok T_import :: Ident a :: dotted ids ++ [Tok T_dot]) p
  = Raises TrailingDotOperator.
Proof.
  split; [|split; [|split]].
  - eapply parseDottedIdentifier_consecutive_dots. apply pending_at.
  - eapply parseDottedIdentifier_trailing_dot. apply pending_at.
  - apply parse_import_raises; [assumption|].
    intros q Hq. eapply parseDottedIdentifier_consecutive_dots. exact Hq.
  - apply parse_import_raises; [assumption|].
    intros q Hq. eapply parseDottedIdentifier_trailing_dot. exact Hq.
Qed.

Lemma dotted_identifier_dot_errors_witness :
  Forall ordinary [Ident "x"; mkToken T_other "="] /\
  result [Ident "x"; mkToken T_other "="; Tok T_import;
          Ident "a"; Tok T_dot; Ident "b"; Tok T_dot; Tok T_dot; Ident "c"] cleared
  = Raises ConsecutiveDotOperators /\
  result [Ident "x"; mkToken T_other "="; Tok T_import;
          Ident "a"; Tok T_dot; Ident "b"; Tok T_dot] cleared
  = Raises TrailingDotOperator.
Proof.
  assert (H : Forall ordinary [Ident "x"; mkToken T_other "="]).
  { repeat constructor; discriminate. }
  split; [exact H|].
  pose proof (dotted_identifier_dot_errors
                [Ident "x"; mkToken T_other "="] "a" ["b"] [Ident "c"] [] cleared H)
    as (_ & _ & H1 & H2).
  split; [exact H1 | exact H2].
Defined.

(** C8, as stated, fails: with the cursor on the [import] token of
    [from . import x], where no identifier can be found, the sub-parser
    raises instead of returning [None]; so it does at the end of the
    tokens; and the whole statement is rejected. *)
Lemma missing_identifier_raises :
  parseDottedIdentifier
    (mkParser [] [Tok T_from; Tok T_dot; Tok T_import; Ident "x"] 2)
  = (Raises MustStartWithIdentifier,
     mkParser [] [Tok T_from; Tok T_dot; Tok T_import; Ident "x"] 2) /\
  parseDottedIdentifier
    (mkParser [] [Tok T_from; Tok T_dot; Tok T_import; Ident "x"] 4)
  = (Raises UnexpectedEndOfTokens,
     mkParser [] [Tok T_from; Tok T_dot; Tok T_import; Ident "x"] 4) /\
  result [Tok T_from; Tok T_dot; Tok T_import; Ident "x"] cleared
  = Raises MustStartWithIdentifier.
Proof. repeat split. Qed.

(** C8, amended.  When no identifier can be found at the current position
    the sub-parser raises: at the end of the tokens, and on a token that is
    neither an identifier nor the wildcard.  It returns [None] only when it
    starts on an identifier token with empty text.  The from-import rule
    answers a [None] or empty root name with a [ParseError], and the
    pure-relative [from . import x] raises. *)
Theorem parseDottedIdentifier_missing_identifier (p : ImportParser) :
  (currentTokenOf p = None ->
   parseDottedIdentifier p = (Raises UnexpectedEndOfTokens, p)) /\
  (forall t, currentTokenOf p = Some t ->
             type t <> T_identifier -> type t <> T_star ->
             parseDottedIdentifier p = (Raises MustStartWithIdentifier, p)) /\
  (forall p', parseDottedIdentifier p = (Returns None, p') ->
              exists t, currentTokenOf p = Some t /\
                        type t = T_identifier /\ value t = "") /\
  (forall rootModuleName rel,
      rootModuleName = None \/ rootModuleName = Some "" ->
      fromAfterRoot rootModuleName rel p
      = (Raises ModuleIdentifierShouldFollowFrom, p)) /\
  (forall x, exists e,
      result [Tok T_from; Tok T_dot; Tok T_import; Ident x] p = Raises e).
Proof.
  split; [|split; [|split; [|split]]].
  - intros Hc. unfold parseDottedIdentifier, bind, currentToken. now rewrite Hc.
  - intros t Hc Hi Hs. unfold parseDottedIdentifier, bind, currentToken. rewrite Hc.
    destruct (type t); try reflexivity; congruence.
  - apply parseDottedIdentifier_None.
  - intros root rel [-> | ->]; reflexivity.
  - intros x. eexists. reflexivity.
Qed.

Lemma parseDottedIdentifier_missing_identifier_witness :
  (currentTokenOf (mkParser [] [Tok T_import; Ident "a"] 2) = None /\
   parseDottedIdentifier (mkParser [] [Tok T_import; Ident "a"] 2)
   = (Raises UnexpectedEndOfTokens, mkParser [] [Tok T_import; Ident "a"] 2)) /\
  (currentTokenOf (mkParser [] [Tok T_import; Ident "a"] 0) = Some (Tok T_import) /\
   parseDottedIdentifier (mkParser [] [Tok T_import; Ident "a"] 0)
   = (Raises MustStartWithIdentifier, mkParser [] [Tok T_import; Ident "a"] 0)) /\
  (parseDottedIdentifier (mkParser [] [Ident ""] 0)
   = (Returns None, mkParser [] [Ident ""] 1) /\
   exists t, currentTokenOf (mkParser [] [Ident ""] 0) = Some t /\
             type t = T_identifier /\ value t = "").
Proof.
  split; [|split]; (split; [reflexivity|]).
  - apply (proj1 (parseDottedIdentifier_missing_identifier
                    (mkParser [] [Tok T_import; Ident "a"] 2))).
    reflexivity.
  - apply (proj1 (proj2 (parseDottedIdentifier_missing_identifier
                           (mkParser [] [Tok T_import; Ident "a"] 0)))
             (Tok T_import)); [reflexivity | discriminate | discriminate].
  - apply (proj1 (proj2 (proj2 (parseDottedIdentifier_missing_identifier
                                  (mkParser [] [Ident ""] 0))))
             (mkParser [] [Ident ""] 1)).
    reflexivity.
Defined.

(** *** State across calls *)

(** C9, as stated, fails: a call on the empty token sequence returns before
    [clear] is reached, so the cursor and the records of an earlier call
    that raised are still there after it. *)
Lemma parse_empty_keeps_stale_state :
  result [Tok T_import; Ident "a"] cleared = Raises UnexpectedEndOfTokens /\
  index (snd (parse [] staleParser)) = 3 /\
  foundImports (snd (parse [] staleParser)) = [mkParsedImport (Some "a") false] /\
  snd (parse [] staleParser) <> snd (parse [] cleared).
Proof. repeat split. discriminate. Qed.

(** C9, amended.  The outcome of [parse] is a function of the token
    sequence alone, whatever the parser holds from earlier calls.  A call on
    a non-empty sequence starts from the cleared parser, and leaves the
    cleared parser when it returns; a call on the empty sequence returns the
    empty result and leaves the parser as it found it. *)
Theorem parse_deterministic (toks : list Token) (p q : ImportParser) :
  result toks p = result toks q /\
  (toks <> [] -> parse toks p = parse toks cleared) /\
  (toks <> [] -> forall r, result toks p = Returns r -> snd (parse toks p) = cleared) /\
  parse [] p = (Returns [], p).
Proof.
  destruct toks as [|t0 toks].
  - repeat split; try reflexivity; intros; congruence.
  - split; [|split; [|split]]; try reflexivity.
    intros _ r. unfold result. rewrite parse_nonempty by discriminate.
    destruct (parseLoop _ _ _) as [[[]| e |] s]; simpl; try discriminate. reflexivity.
Qed.

Lemma parse_deterministic_witness :
  result [Tok T_import; Ident "a"] staleParser = result [Tok T_import; Ident "a"] cleared /\
  parse [Ident "x"] staleParser = parse [Ident "x"] cleared /\
  snd (parse [Ident "x"] staleParser) = cleared.
Proof.
  split; [|split].
  - apply (parse_deterministic [Tok T_import; Ident "a"] staleParser cleared).
  - apply (proj1 (proj2 (parse_deterministic [Ident "x"] staleParser cleared))).
    discriminate.
  - apply (proj1 (proj2 (proj2 (parse_deterministic [Ident "x"] staleParser cleared)))
             ltac:(discriminate) []).
    reflexivity.
Defined.

(** *** Inputs without import statements *)

(** C10.  On a token sequence without [import] and [from] tokens, the empty
    one included, [parse] returns the empty sequence; its loop steps over
    every token, up to the end of the sequence, and records nothing. *)
Theorem parse_without_keywords (toks : list Token) (p : ImportParser)
        (Hplain : Forall (fun t => type t <> T_import /\ type t <> T_from) toks) :
  result toks p = Returns [] /\
  parseLoop (loopFuel (started toks)) (currentTokenOf (started toks)) (started toks)
  = (Returns tt, mkParser [] toks (length toks)).
Proof.
  split; [now apply parse_ordinary | now apply parseLoop_ordinary].
Qed.

Lemma parse_without_keywords_witness :
  Forall (fun t => type t <> T_import /\ type t <> T_from) noImportTokens /\
  result noImportTokens cleared = Returns [] /\
  result [] staleParser = Returns [].
Proof.
  assert (H : Forall (fun t => type t <> T_import /\ type t <> T_from) noImportTokens).
  { repeat constructor; discriminate. }
  split; [exact H | split].
  - exact (proj1 (parse_without_keywords noImportTokens cleared H)).
  - exact (proj1 (parse_without_keywords [] staleParser (Forall_nil _))).
Defined.

(** ** Further properties of the parser *)

Section SubParsers.

(** The loop of [parseDottedIdentifier] on [.b.c] followed by a token that
    is not a dot: the name is completed and the cursor stops on that token. *)
Lemma dottedLoop_run ids :
  forall n name p suffix,
    pending p = dotted ids ++ suffix -> endsName suffix -> remaining p < n ->
    exists q,
      dottedLoop n (currentTokenOf p) name true p
      = (Returns (dottedName name ids), q) /\
      pending q = suffix /\ tokens q = tokens p /\
      foundImports q = foundImports p /\ index q = index p + 2 * length ids.
Proof.
  induction ids as [|s ids IH]; intros n name p suffix Hp Hend Hn.
  - exists p. simpl in Hp. rewrite Nat.add_0_r.
    split; [|auto]. destruct n as [|n]; [lia|].
    rewrite currentTokenOf_pending, Hp. unfold endsName in Hend.
    destruct suffix as [|t suffix]; [reflexivity|].
    specialize (Hend t eq_refl). simpl.
    destruct (type t); try reflexivity. congruence.
  - simpl in Hp.
    destruct (pending_cons _ _ _ Hp) as (Hc & Hs & Hr).
    destruct (pending_cons _ _ _ Hs) as (Hc' & Hs' & Hr').
    destruct n as [|[|n]]; try lia.
    destruct (IH n ((name ++ ".") ++ s)%string (advance 1 (advance 1 p)) suffix Hs' Hend
                 ltac:(lia)) as (q & Heq & Hq & Ht & Hf & Hi).
    exists q.
    rewrite Hc, dottedLoop_dot, Hc', dottedLoop_identifier by reflexivity.
    split; [exact Heq|]. repeat split; try assumption.
    rewrite Hi. unfold advance. cbn [index length]. lia.
Qed.

Lemma parseDottedIdentifier_word w suffix p :
  pending p = nameTokens w ++ suffix -> endsName suffix ->
  exists q,
    parseDottedIdentifier p = (Returns (nameOf w), q) /\
    pending q = suffix /\ tokens q = tokens p /\
    foundImports q = foundImports p /\
    index q = index p + length (nameTokens w).
Proof.
  destruct w as [a ids]. unfold nameTokens, nameOf. cbn [fst snd].
  intros Hp Hend. simpl in Hp.
  destruct (pending_cons _ _ _ Hp) as (Hc & Hs & Hr).
  destruct (dottedLoop_run ids (loopFuel p) a (advance 1 p) suffix Hs Hend)
    as (q & Heq & Hq & Ht & Hf & Hi).
  { unfold loopFuel. fold (remaining p). lia. }
  exists q. split; [|repeat split; try assumption].
  - unfold parseDottedIdentifier, bind, currentToken. rewrite Hc.
    cbv beta iota. change (type (Ident a)) with T_identifier. cbv beta iota.
    rewrite dottedLoop_identifier by reflexivity.
    change ("" ++ value (Ident a))%string with a. rewrite Heq.
    unfold ret. now destruct (dottedName a ids =? "")%string.
  - rewrite Hi. unfold advance, dotted. cbn [index length].
    rewrite (flat_map_constant_length (c := 2)) by reflexivity. lia.
Qed.

Lemma endsName_comma l : endsName (Tok T_comma :: l).
Proof. intros t H. inversion H. discriminate. Qed.

Lemma endsList_endsName suffix : endsList suffix -> endsName suffix.
Proof. intros H t Ht. now apply H. Qed.

(** The loop of [parseImportedObjects] on [, w1, w2 ...]. *)
Lemma objectsLoop_words ws :
  forall n acc p tail,
    pending p = afterComma ws ++ tail -> endsName tail -> remaining p < n ->
    exists q,
      objectsLoop n acc p = objectsLoop (n - length ws) (acc ++ map nameOf ws) q /\
      pending q = tail /\ tokens q = tokens p /\
      foundImports q = foundImports p /\ remaining q < n - length ws.
Proof.
  induction ws as [|w ws IH]; intros n acc p tail Hp Hend Hn.
  - exists p. simpl. rewrite Nat.sub_0_r, app_nil_r. auto.
  - simpl in Hp. rewrite <- app_assoc in Hp.
    destruct (pending_cons _ _ _ Hp) as (Hc & Hs & Hr).
    destruct (parseDottedIdentifier_word w (afterComma ws ++ tail) (advance 1 p) Hs)
      as (q & Hq & Hpq & Htq & Hfq & Hiq).
    { destruct ws; [exact Hend | apply endsName_comma]. }
    destruct n as [|n]; [lia|].
    destruct (IH n (acc ++ [nameOf w]) q tail Hpq Hend) as (r & Hr1 & Hr2 & Hr3 & Hr4 & Hr5).
    { unfold remaining in *. rewrite Htq, Hiq. unfold advance. cbn [index tokens]. lia. }
    exists r. cbn [length map]. replace (S n - S (length ws)) with (n - length ws) by lia.
    rewrite <- app_assoc in Hr1. cbn [app] in Hr1.
    split; [|repeat split; try assumption;
             [rewrite Hr3, Htq | rewrite Hr4, Hfq]; reflexivity].
    cbn [objectsLoop]. unfold bind at 1, currentToken. rewrite Hc.
    cbv beta iota. change (TokenType_eqb (type (Tok T_comma)) T_comma) with true.
    cbv beta iota. unfold bind at 1. rewrite nextToken_eq. unfold bind at 1.
    rewrite Hq. exact Hr1.
Qed.

Lemma objectsLoop_stop n acc p :
  (forall t, currentTokenOf p = Some t -> type t <> T_comma) ->
  objectsLoop (S n) acc p = (Returns acc, p).
Proof.
  intros H. cbn [objectsLoop]. unfold bind, currentToken.
  destruct (currentTokenOf p) as [t|]; [|reflexivity].
  specialize (H t eq_refl). destruct (type t); try reflexivity. congruence.
Qed.

(** The list the loop returns extends the one it was given. *)
Lemma objectsLoop_extends n :
  forall acc p objs q,
    objectsLoop n acc p = (Returns objs, q) -> exists l, objs = acc ++ l.
Proof.
  induction n as [|n IH]; intros acc p objs q H; [discriminate|].
  cbn [objectsLoop] in H. unfold bind at 1, currentToken in H.
  destruct (currentTokenOf p) as [t|].
  2:{ inversion H. exists []. now rewrite app_nil_r. }
  cbv beta iota in H.
  destruct (TokenType_eqb (type t) T_comma).
  2:{ inversion H. exists []. now rewrite app_nil_r. }
  unfold bind at 1 in H. rewrite nextToken_eq in H. unfold bind at 1 in H.
  destruct (parseDottedIdentifier (advance 1 p)) as [[obj| e |] r]; try discriminate.
  apply IH in H. destruct H as (l & ->). exists (obj :: l).
  now rewrite <- app_assoc.
Qed.

Lemma dottedLoop_raises fuel :
  forall token name lookingForDot p e q,
    dottedLoop fuel token name lookingForDot p = (Raises e, q) ->
    e = TrailingDotOperator \/ e = ConsecutiveDotOperators.
Proof.
  induction fuel as [|fuel IH]; intros token name l p e q H; simpl in H.
  - discriminate.
  - destruct l, token as [t|]; try destruct (type t);
      unfold ret, raise, bind in H; try rewrite nextToken_eq in H;
      try discriminate; try (inversion H; subst; auto; fail);
      eapply IH; exact H.
Qed.

Lemma parseDottedIdentifier_raises p e q :
  parseDottedIdentifier p = (Raises e, q) -> dottedIdentifierError e.
Proof.
  unfold parseDottedIdentifier, bind, currentToken, dottedIdentifierError.
  destruct (currentTokenOf p) as [t|].
  2:{ intros H. inversion H. auto. }
  destruct (type t); try (intros H; inversion H; auto; fail).
  destruct (dottedLoop _ _ _ _ _) as [[name| e' |] r] eqn:Hloop.
  - destruct (name =? "")%string; discriminate.
  - intros H. inversion H; subst. apply dottedLoop_raises in Hloop. tauto.
  - discriminate.
Qed.

Lemma parseImport_raises p e q :
  parseImport p = (Raises e, q) -> dottedIdentifierError e.
Proof.
  unfold parseImport, bind. rewrite nextToken_eq.
  destruct (parseDottedIdentifier (advance 1 p)) as [[name| e' |] r] eqn:Hd.
  - discriminate.
  - intros H. inversion H; subst. eapply parseDottedIdentifier_raises; eauto.
  - discriminate.
Qed.

Lemma parseLoop_raises n :
  forall token p e q,
    loopToken token p -> parseLoop n token p = (Raises e, q) ->
    dottedIdentifierError e.
Proof.
  induction n as [|n IH]; intros token p e q Hinv H;
    destruct token as [t|]; try discriminate.
  destruct (TokenType_eqb (type t) T_import) eqn:Himp;
    [|destruct (TokenType_eqb (type t) T_from) eqn:Hfrom].
  - assert (Hty : type t = T_import) by (destruct (type t); simpl in Himp; congruence).
    simpl in H. rewrite Hty in H. unfold bind in H.
    destruct (parseImport p) as [[[]| e' |] r] eqn:Hr; try discriminate.
    + eapply IH; [|exact H]. right. eauto.
    + inversion H; subst. eapply parseImport_raises; eauto.
  - assert (Hty : type t = T_from) by (destruct (type t); simpl in Hfrom; congruence).
    assert (Hcur : currentTokenOf p = Some t).
    { destruct Hinv as [Hc | (t' & Ht' & Hty')]; [now symmetry|].
      inversion Ht'; subst. congruence. }
    destruct (parseFrom_raises _ _ Hcur Hty) as (e' & r & Hr & _ & He').
    simpl in H. rewrite Hty in H. unfold bind in H. rewrite Hr in H.
    inversion H; subst. unfold dottedIdentifierError. tauto.
  - assert (Hi : type t <> T_import) by (intros E; rewrite E in Himp; discriminate).
    assert (Hf : type t <> T_from) by (intros E; rewrite E in Hfrom; discriminate).
    rewrite (parseLoop_other _ _ Hi Hf) in H. unfold bind in H.
    rewrite nextToken_eq in H. eapply IH; [|exact H]. now left.
Qed.

End SubParsers.

(** *** What [parse] returns and raises *)

(** X1.  [parse] returns normally exactly on the token sequences without
    [import] and [from] tokens, and what it then returns is the empty
    list: no call ever returns an import. *)
Theorem parse_returns_only_without_keywords
        (toks : list Token) (p : ImportParser) (r : list ParsedImport) :
  result toks p = Returns r <-> Forall ordinary toks /\ r = [].
Proof. apply parse_returns_iff. Qed.

Lemma parse_returns_only_without_keywords_witness :
  result [Ident "print"; mkToken T_other "("; Tok T_star] staleParser = Returns [] /\
  (Forall ordinary [Ident "print"; mkToken T_other "("; Tok T_star] /\
   @nil ParsedImport = []).
Proof.
  split; [reflexivity|].
  apply (proj1 (parse_returns_only_without_keywords
                  [Ident "print"; mkToken T_other "("; Tok T_star] staleParser [])).
  reflexivity.
Defined.

(** X2.  The only errors [parse] raises are the four of
    [parseDottedIdentifier]: the three errors that [parseFrom] words itself
    are never raised by a call of [parse]. *)
Theorem parse_raises_dotted_identifier_errors
        (toks : list Token) (p : ImportParser) (e : ParseError)
        (Hraise : result toks p = Raises e) :
  dottedIdentifierError e /\
  e <> ModuleIdentifierShouldFollowFrom /\
  (forall t, e <> ImportKeywordShouldFollowRoot t) /\
  (forall t, e <> NeverImportedAnyObjects t).
Proof.
  assert (He : dottedIdentifierError e).
  { unfold result in Hraise. destruct toks as [|t0 toks]; [discriminate|].
    rewrite parse_nonempty in Hraise by discriminate.
    destruct (parseLoop _ _ _) as [[[]| e' |] r] eqn:Hloop; try discriminate.
    simpl in Hraise. inversion Hraise; subst.
    eapply parseLoop_raises; [|exact Hloop]. now left. }
  split; [exact He|].
  destruct He as [-> | [-> | [-> | ->]]]; repeat split; intros; discriminate.
Qed.

Lemma parse_raises_dotted_identifier_errors_witness :
  result [Tok T_from; Ident "a"; Ident "b"] cleared = Raises MustStartWithIdentifier /\
  dottedIdentifierError MustStartWithIdentifier.
Proof.
  split; [reflexivity|].
  apply (parse_raises_dotted_identifier_errors
           [Tok T_from; Ident "a"; Ident "b"] cleared MustStartWithIdentifier).
  reflexivity.
Defined.

(** X3.  Every call of [parse] terminates, although its loop does not
    reassign [token] after [parseImport]: with the iteration bounds given to
    the three loops the outcome is never [OutOfFuel], and larger bounds give
    the same runs. *)
Theorem parse_terminates (toks : list Token) (p q : ImportParser) (extra : nat) :
  result toks p <> OutOfFuel /\
  parseLoop (loopFuel (started toks) + extra)
            (currentTokenOf (started toks)) (started toks)
  = parseLoop (loopFuel (started toks))
              (currentTokenOf (started toks)) (started toks) /\
  (forall name lookingForDot,
      dottedLoop (S (loopFuel q) + extra) (currentTokenOf q) name lookingForDot q
      = dottedLoop (S (loopFuel q)) (currentTokenOf q) name lookingForDot q) /\
  (forall importedObjects,
      objectsLoop (loopFuel q + extra) importedObjects q
      = objectsLoop (loopFuel q) importedObjects q).
Proof.
  split; [apply parse_total|]. split; [|split].
  - apply parseLoop_total; [now left | unfold loopFuel, remaining; lia | lia].
  - intros name l. apply dottedLoop_total; [unfold loopFuel, remaining; lia | lia].
  - intros objs. apply objectsLoop_total; [unfold loopFuel, remaining; lia | lia].
Qed.

(** X4.  A call that raises skips the final [clear]: the parser keeps the
    token sequence of the failed call. *)
Theorem parse_raise_keeps_tokens
        (toks : list Token) (p : ImportParser) (e : ParseError)
        (Hraise : result toks p = Raises e) :
  tokens (snd (parse toks p)) = toks /\ toks <> [] /\ snd (parse toks p) <> cleared.
Proof.
  unfold result in Hraise. destruct toks as [|t0 toks]; [discriminate|].
  rewrite parse_nonempty in * by discriminate.
  destruct (parseLoop _ _ _) as [[[]| e' |] r] eqn:Hloop; try discriminate.
  apply parseLoop_started in Hloop. destruct Hloop as (_ & Ht & _).
  simpl in Ht. simpl. split; [assumption|]. split; [discriminate|].
  intros Hc. rewrite Hc in Ht. discriminate.
Qed.

Lemma parse_raise_keeps_tokens_witness :
  result [Tok T_import; Ident "a"] cleared = Raises UnexpectedEndOfTokens /\
  tokens (snd (parse [Tok T_import; Ident "a"] cleared)) = [Tok T_import; Ident "a"].
Proof.
  split; [reflexivity|].
  apply (parse_raise_keeps_tokens [Tok T_import; Ident "a"] cleared UnexpectedEndOfTokens).
  reflexivity.
Defined.

(** *** The sub-parsers on well-formed input *)

(** X5.  On a dotted name [a.b.c] followed by the end of the tokens or by a
    token that is not a dot, [parseDottedIdentifier] returns the name with
    its dots, consumes exactly its tokens and touches nothing else; the name
    is [None] only when all its identifiers are empty. *)
Theorem parseDottedIdentifier_reads_word
        (w : dottedWord) (suffix : list Token) (p : ImportParser)
        (Hpending : pending p = nameTokens w ++ suffix)
        (Hend : endsName suffix) :
  exists q,
    parseDottedIdentifier p = (Returns (nameOf w), q) /\
    pending q = suffix /\ tokens q = tokens p /\
    foundImports q = foundImports p /\
    index q = index p + length (nameTokens w).
Proof. exact (parseDottedIdentifier_word w suffix p Hpending Hend). Qed.

Lemma parseDottedIdentifier_reads_word_witness :
  exists q,
    parseDottedIdentifier
      (mkParser [] [Tok T_import; Ident "os"; Tok T_dot; Ident "path"; Ident "x"] 1)
    = (Returns (Some "os.path"), q) /\
    pending q = [Ident "x"] /\ index q = 4.
Proof.
  destruct (parseDottedIdentifier_reads_word
              ("os", ["path"]) [Ident "x"]
              (mkParser [] [Tok T_import; Ident "os"; Tok T_dot; Ident "path"; Ident "x"] 1)
              eq_refl) as (q & H1 & H2 & _ & _ & H3).
  { intros t Ht. inversion Ht. discriminate. }
  exists q. split; [exact H1 | split; [exact H2 | exact H3]].
Defined.

(** X6.  [parseImport] skips the current token, whatever it is, and on a
    dotted name that follows it appends exactly one absolute record with
    that name to [foundImports], leaving the cursor after the name. *)
Theorem parseImport_records_word
        (keyword : Token) (w : dottedWord) (suffix : list Token) (p : ImportParser)
        (Hpending : pending p = keyword :: nameTokens w ++ suffix)
        (Hend : endsName suffix) :
  exists q,
    parseImport p = (Returns tt, q) /\
    foundImports q = foundImports p ++ [mkParsedImport (nameOf w) false] /\
    pending q = suffix /\ tokens q = tokens p /\
    index q = index p + 1 + length (nameTokens w).
Proof.
  destruct (pending_cons _ _ _ Hpending) as (_ & Hs & _).
  destruct (parseDottedIdentifier_word w suffix (advance 1 p) Hs Hend)
    as (q & Hq & Hpq & Htq & Hfq & Hiq).
  exists (mkParser (foundImports q ++ [mkParsedImport (nameOf w) false])
                   (tokens q) (index q)).
  split; [|split; [|split; [|split]]].
  - unfold parseImport, bind. rewrite nextToken_eq, Hq. reflexivity.
  - cbn [foundImports]. now rewrite Hfq.
  - exact Hpq.
  - cbn [tokens]. now rewrite Htq.
  - cbn [index]. rewrite Hiq. reflexivity.
Qed.

Lemma parseImport_records_word_witness :
  exists q,
    parseImport (started [Tok T_import; Ident "a"; Tok T_dot; Ident "b"; Tok T_comma])
    = (Returns tt, q) /\
    foundImports q = [mkParsedImport (Some "a.b") false] /\
    pending q = [Tok T_comma].
Proof.
  destruct (parseImport_records_word
              (Tok T_import) ("a", ["b"]) [Tok T_comma]
              (started [Tok T_import; Ident "a"; Tok T_dot; Ident "b"; Tok T_comma])
              eq_refl) as (q & H1 & H2 & H3 & _).
  { apply endsName_comma. }
  exists q. split; [exact H1 | split; [exact H2 | exact H3]].
Defined.

(** X7.  On a comma-separated list of dotted names, followed by the end of
    the tokens or by a token that is neither a dot nor a comma,
    [parseImportedObjects] returns the names in the order written,
    duplicates included, and leaves the cursor after the list. *)
Theorem parseImportedObjects_reads_list
        (w : dottedWord) (ws : list dottedWord) (suffix : list Token)
        (p : ImportParser)
        (Hpending : pending p = nameTokens w ++ afterComma ws ++ suffix)
        (Hend : endsList suffix) :
  exists q,
    parseImportedObjects p = (Returns (map nameOf (w :: ws)), q) /\
    pending q = suffix /\ tokens q = tokens p /\ foundImports q = foundImports p.
Proof.
  destruct (parseDottedIdentifier_word w (afterComma ws ++ suffix) p Hpending)
    as (q & Hq & Hpq & Htq & Hfq & _).
  { destruct ws; [now apply endsList_endsName | apply endsName_comma]. }
  destruct (objectsLoop_words ws (loopFuel q) [nameOf w] q suffix Hpq)
    as (r & Hr & Hpr & Htr & Hfr & Hrem).
  { now apply endsList_endsName. }
  { unfold loopFuel. fold (remaining q). lia. }
  exists r. split; [|repeat split; congruence].
  unfold parseImportedObjects, bind. rewrite Hq, Hr.
  destruct (loopFuel q - length ws) as [|k]; [lia|].
  cbn [map app]. apply objectsLoop_stop.
  intros t Ht. rewrite currentTokenOf_pending, Hpr in Ht. now apply Hend.
Qed.

Lemma parseImportedObjects_reads_list_witness :
  exists q,
    parseImportedObjects
      (started [Ident "e"; Tok T_comma; Ident "f"; Tok T_dot; Ident "g";
                Tok T_comma; Ident "e"; Tok T_import])
    = (Returns [Some "e"; Some "f.g"; Some "e"], q) /\
    pending q = [Tok T_import].
Proof.
  destruct (parseImportedObjects_reads_list
              ("e", []) [("f", ["g"]); ("e", [])] [Tok T_import]
              (started [Ident "e"; Tok T_comma; Ident "f"; Tok T_dot; Ident "g";
                        Tok T_comma; Ident "e"; Tok T_import])
              eq_refl) as (q & H1 & H2 & _).
  { intros t Ht. inversion Ht. split; discriminate. }
  exists q. split; [exact H1 | exact H2].
Defined.

Lemma objectsLoop_comma n acc p t :
  currentTokenOf p = Some t -> type t = T_comma ->
  objectsLoop (S n) acc p
  = match parseDottedIdentifier (advance 1 p) with
    | (Returns obj, q) => objectsLoop n (acc ++ [obj]) q
    | (Raises e, q) => (Raises e, q)
    | (OutOfFuel, q) => (OutOfFuel, q)
    end.
Proof.
  intros Hc Hty. cbn [objectsLoop]. unfold bind at 1, currentToken. rewrite Hc.
  cbv beta iota. rewrite Hty. change (TokenType_eqb T_comma T_comma) with true.
  cbv beta iota. unfold bind at 1. rewrite nextToken_eq. unfold bind at 1.
  destruct (parseDottedIdentifier (advance 1 p)) as [[obj| e |] q]; reflexivity.
Qed.

Lemma parseDottedIdentifier_star p t :
  currentTokenOf p = Some t -> type t = T_star ->
  parseDottedIdentifier p = (Returns (Some "*"), p).
Proof.
  intros Hc Hty. unfold parseDottedIdentifier, bind, currentToken.
  now rewrite Hc, Hty.
Qed.

(** X8.  A wildcard ends the list of imported objects without being
    consumed: [parseImportedObjects] returns the names before it and ["*"],
    leaves the cursor on the [*] token, and reads nothing of what follows,
    not even a comma. *)
Theorem parseImportedObjects_stops_at_wildcard
        (ws : list dottedWord) (rest : list Token) (p : ImportParser)
        (Hpending :
           pending p
           = match ws with
             | [] => Tok T_star :: rest
             | w :: ws' =>
                 nameTokens w ++ afterComma ws' ++ Tok T_comma :: Tok T_star :: rest
             end) :
  exists q,
    parseImportedObjects p = (Returns (map nameOf ws ++ [Some "*"]), q) /\
    pending q = Tok T_star :: rest /\ tokens q = tokens p /\
    foundImports q = foundImports p.
Proof.
  assert (Hstop : forall q acc k,
             pending q = Tok T_star :: rest ->
             objectsLoop (S k) acc q = (Returns acc, q)).
  { intros q acc k Hq. destruct (pending_cons _ _ _ Hq) as (Hc & _ & _).
    apply objectsLoop_stop. intros t Ht. rewrite Hc in Ht. inversion Ht. discriminate. }
  assert (Hstar : forall q, pending q = Tok T_star :: rest ->
                            parseDottedIdentifier q = (Returns (Some "*"), q)).
  { intros q Hq. destruct (pending_cons _ _ _ Hq) as (Hc & _ & _).
    now apply (parseDottedIdentifier_star q (Tok T_star)). }
  destruct ws as [|w ws].
  - exists p. split; [|auto].
    unfold parseImportedObjects, bind. rewrite (Hstar p Hpending).
    now apply Hstop.
  - destruct (parseDottedIdentifier_word
                w (afterComma ws ++ Tok T_comma :: Tok T_star :: rest) p Hpending)
      as (q & Hq & Hpq & Htq & Hfq & _).
    { destruct ws; apply endsName_comma. }
    destruct (objectsLoop_words ws (loopFuel q) [nameOf w] q
                                (Tok T_comma :: Tok T_star :: rest) Hpq)
      as (r & Hr & Hpr & Htr & Hfr & Hrem).
    { apply endsName_comma. }
    { unfold loopFuel. fold (remaining q). lia. }
    destruct (pending_cons _ _ _ Hpr) as (Hc & Hs & _).
    rewrite <- pending_length, Hpr in Hrem. cbn [length] in Hrem.
    exists (advance 1 r).
    split; [|split; [exact Hs | split]].
    + unfold parseImportedObjects, bind at 1. rewrite Hq, Hr.
      destruct (loopFuel q - length ws) as [|[|k]]; try lia.
      rewrite (objectsLoop_comma _ _ _ _ Hc eq_refl), (Hstar _ Hs).
      cbn [map app]. now apply Hstop.
    + unfold advance. cbn [tokens]. congruence.
    + unfold advance. cbn [foundImports]. congruence.
Qed.

Lemma parseImportedObjects_stops_at_wildcard_witness :
  exists q,
    parseImportedObjects
      (started [Ident "dummy"; Tok T_comma; Tok T_star; Tok T_comma; Ident "late"])
    = (Returns [Some "dummy"; Some "*"], q) /\
    pending q = [Tok T_star; Tok T_comma; Ident "late"].
Proof.
  destruct (parseImportedObjects_stops_at_wildcard
              [("dummy", [])] [Tok T_comma; Ident "late"]
              (started [Ident "dummy"; Tok T_comma; Tok T_star; Tok T_comma; Ident "late"])
              eq_refl) as (q & H1 & H2 & _).
  exists q. split; [exact H1 | exact H2].
Defined.

(** X9.  The list [parseImportedObjects] returns is never empty: the
    "never imported any objects" check of [parseFrom] cannot fire. *)
Theorem parseImportedObjects_never_empty
        (p q : ImportParser) (importedObjects : list (option string))
        (Hret : parseImportedObjects p = (Returns importedObjects, q)) :
  importedObjects <> [] /\ Nat.eqb (length importedObjects) 0 = false.
Proof.
  unfold parseImportedObjects, bind in Hret.
  destruct (parseDottedIdentifier p) as [[first| e |] r]; try discriminate.
  apply objectsLoop_extends in Hret. destruct Hret as (l & ->).
  split; [discriminate | reflexivity].
Qed.

Lemma parseImportedObjects_never_empty_witness :
  parseImportedObjects (started [Tok T_star])
  = (Returns [Some "*"], started [Tok T_star]) /\
  [Some "*"] <> [].
Proof.
  split; [reflexivity|].
  apply (parseImportedObjects_never_empty
           (started [Tok T_star]) (started [Tok T_star]) [Some "*"]).
  reflexivity.
Defined.

(** *** Import records *)

Lemma name_eqb_eq a b : name_eqb a b = true <-> a = b.
Proof.
  destruct a as [x|], b as [y|]; simpl; try (split; congruence).
  rewrite String.eqb_eq. split; congruence.
Qed.

(** X10.  On import records [!=] is the negation of [==], and [==] holds
    exactly between records with the same name and the same flag. *)
Theorem ParsedImport_ne_negates_eq (a b : ParsedImport) :
  ParsedImport_ne a b = negb (ParsedImport_eq a b) /\
  (ParsedImport_eq a b = true <-> a = b).
Proof.
  unfold ParsedImport_ne, ParsedImport_eq. split.
  - now rewrite negb_andb.
  - rewrite andb_true_iff, name_eqb_eq, eqb_true_iff.
    destruct a as [na ra], b as [nb rb]. simpl. split.
    + intros (-> & ->). reflexivity.
    + intros H. inversion H. auto.
Qed.

Lemma length_append (a b : string) :
  String.length (a ++ b) = String.length a + String.length b.
Proof. induction a as [|c a IH]; simpl; [reflexivity | now rewrite IH]. Qed.

Lemma append_inj_suffix (x y s1 s2 : string) :
  String.length s1 = String.length s2 ->
  (x ++ s1)%string = (y ++ s2)%string -> x = y /\ s1 = s2.
Proof.
  revert y. induction x as [|c x IH]; intros [|d y] Hlen H; simpl in H.
  - auto.
  - subst s1. simpl in Hlen. rewrite length_append in Hlen. lia.
  - subst s2. simpl in Hlen. rewrite length_append in Hlen. lia.
  - inversion H; subst. destruct (IH y Hlen) as (-> & ->); auto.
Qed.

(** X11.  The printed form of an import record determines the record: two
    records that print alike have the same flag and the same printed
    name. *)
Theorem ParsedImport_str_injective (a b : ParsedImport)
        (Hstr : ParsedImport_str a = ParsedImport_str b) :
  pystr (moduleName a) = pystr (moduleName b) /\ relative a = relative b.
Proof.
  unfold ParsedImport_str, isRelative in Hstr. simpl in Hstr.
  inversion Hstr as [H]. clear Hstr.
  apply append_inj_suffix in H.
  - destruct H as (Hn & Hk). split; [exact Hn|].
    destruct (relative a), (relative b); simpl in Hk; congruence.
  - destruct (relative a), (relative b); reflexivity.
Qed.

Lemma ParsedImport_str_injective_witness :
  ParsedImport_str (mkParsedImport None false)
  = ParsedImport_str (mkParsedImport (Some "None") false) /\
  pystr (moduleName (mkParsedImport None false))
  = pystr (moduleName (mkParsedImport (Some "None") false)).
Proof.
  split; [reflexivity|].
  exact (proj1 (ParsedImport_str_injective
                  (mkParsedImport None false) (mkParsedImport (Some "None") false)
                  eq_refl)).
Defined.

(** ** The command line *)

Section Strings.

Lemma str_eqb_eq a : forall b, str_eqb a b = true <-> a = b.
Proof.
  induction a as [|x a IH]; intros [|y b]; simpl; try (split; congruence).
  rewrite andb_true_iff, N.eqb_eq, IH. split.
  - intros (-> & ->). reflexivity.
  - intros H. inversion H. auto.
Qed.

Lemma str_eqb_refl a : str_eqb a a = true.
Proof. now apply str_eqb_eq. Qed.

Lemma str_eqb_neq a b : str_eqb a b = false <-> a <> b.
Proof.
  destruct (str_eqb a b) eqn:H.
  - apply str_eqb_eq in H. split; congruence.
  - split; [|reflexivity]. intros _ E. apply str_eqb_eq in E. congruence.
Qed.

Lemma existsb_str_eqb k l : existsb (str_eqb k) l = true <-> In k l.
Proof.
  rewrite existsb_exists. split.
  - intros (x & Hx & E). apply str_eqb_eq in E. now subst.
  - intros H. exists k. split; [assumption | apply str_eqb_refl].
Qed.

Lemma str_split_nonempty sep s : str_split sep s <> [].
Proof.
  induction s as [|c s IH]; simpl; [discriminate|].
  destruct (N.eqb c sep); [discriminate|].
  destruct (str_split sep s); [congruence | discriminate].
Qed.

Lemma str_split_without sep s : ~ In sep s -> str_split sep s = [s].
Proof.
  induction s as [|c s IH]; intros H; simpl; [reflexivity|].
  destruct (N.eqb_spec c sep) as [-> | Hne].
  - exfalso. apply H. now left.
  - rewrite IH; [reflexivity|]. intros Hin. apply H. now right.
Qed.

Lemma str_split_app sep k v :
  ~ In sep k -> str_split sep (k ++ sep :: v) = k :: str_split sep v.
Proof.
  induction k as [|c k IH]; intros H; simpl.
  - now rewrite N.eqb_refl.
  - destruct (N.eqb_spec c sep) as [-> | Hne].
    + exfalso. apply H. now left.
    + rewrite IH; [reflexivity|]. intros Hin. apply H. now right.
Qed.

Lemma str_split_length sep s :
  length (str_split sep s) = S (count_occ N.eq_dec s sep).
Proof.
  induction s as [|c s IH]; simpl; [reflexivity|].
  destruct (N.eqb_spec c sep) as [-> | Hne].
  - destruct (N.eq_dec sep sep); [|congruence]. simpl. now rewrite IH.
  - destruct (N.eq_dec c sep); [congruence|].
    destruct (str_split sep s) eqn:Hs; simpl in *; [discriminate | exact IH].
Qed.

Lemma dict_get_set k k' v d :
  dict_get k (dict_set k' v d) = if str_eqb k k' then Some v else dict_get k d.
Proof.
  induction d as [|[k0 v0] d IH]; simpl.
  - reflexivity.
  - destruct (str_eqb k' k0) eqn:E; simpl.
    + apply str_eqb_eq in E. subst k0. now destruct (str_eqb k k').
    + rewrite IH. destruct (str_eqb k k0) eqn:E0; [|reflexivity].
      apply str_eqb_eq in E0. subst k0.
      destruct (str_eqb k k') eqn:E1; [|reflexivity].
      apply str_eqb_eq in E1. subst k'. rewrite str_eqb_refl in E. discriminate.
Qed.

Lemma dict_get_del k k' d :
  dict_get k (dict_del k' d) = if str_eqb k k' then None else dict_get k d.
Proof.
  unfold dict_del. induction d as [|[k0 v0] d IH]; simpl.
  - now destruct (str_eqb k k').
  - destruct (str_eqb k' k0) eqn:E; simpl.
    + apply str_eqb_eq in E. subst k0. rewrite IH. now destruct (str_eqb k k').
    + rewrite IH. destruct (str_eqb k k0) eqn:E0; [|reflexivity].
      apply str_eqb_eq in E0. subst k0.
      destruct (str_eqb k k') eqn:E1; [|reflexivity].
      apply str_eqb_eq in E1. subst k'. rewrite str_eqb_refl in E. discriminate.
Qed.

Lemma isQuote_not_newline q : isQuote q = true -> q <> newline.
Proof. intros H ->. discriminate. Qed.

Lemma forallb_not_newline body :
  forallb (fun x => negb (N.eqb x newline)) body = true
  <-> Forall (fun c => c <> newline) body.
Proof.
  rewrite forallb_forall, Forall_forall. split; intros H x Hx; specialize (H x Hx).
  - apply negb_true_iff, N.eqb_neq in H. exact H.
  - apply negb_true_iff, N.eqb_neq. exact H.
Qed.

(** The executable reading of [STRING_REGEX] agrees with the pattern. *)
Lemma stringRegexMatch_quoted value : stringRegexMatch value = true <-> quoted value.
Proof.
  unfold quoted. split.
  - destruct value as [|q rest]; simpl; [discriminate|].
    rewrite andb_true_iff. intros (Hq & H).
    destruct (rev (stripFinalNewline rest)) as [|c body] eqn:Hrev; [discriminate|].
    apply andb_true_iff in H. destruct H as (Hc & Hbody).
    apply N.eqb_eq in Hc. subst c.
    assert (Hstrip : stripFinalNewline rest = rev body ++ [q]).
    { rewrite <- (rev_involutive (stripFinalNewline rest)), Hrev. reflexivity. }
    assert (Hall : Forall (fun c => c <> newline) (rev body)).
    { apply forallb_not_newline in Hbody. apply Forall_rev. exact Hbody. }
    exists q, (rev body). split; [assumption | split; [assumption|]].
    unfold stripFinalNewline in Hstrip.
    destruct (rev rest) as [|c0 before] eqn:Hrest.
    + left. now rewrite Hstrip.
    + destruct (N.eqb_spec c0 newline) as [-> | Hne].
      * right. rewrite <- (rev_involutive rest), Hrest. simpl.
        rewrite Hstrip, <- app_assoc. reflexivity.
      * left. now rewrite Hstrip.
  - intros (q & body & Hq & Hall & [-> | ->]); simpl; rewrite Hq; simpl.
    + unfold stripFinalNewline. rewrite rev_app_distr. simpl.
      destruct (N.eqb_spec q newline) as [E | _].
      * now apply isQuote_not_newline in Hq.
      * rewrite rev_app_distr. simpl. rewrite N.eqb_refl. simpl.
        apply forallb_not_newline, Forall_rev. exact Hall.
    + unfold stripFinalNewline. rewrite rev_app_distr. simpl.
      rewrite rev_app_distr, rev_involutive. simpl. rewrite N.eqb_refl. simpl.
      apply forallb_not_newline, Forall_rev. exact Hall.
Qed.

End Strings.

(** *** Option names and values *)

Lemma dashLoop_dashes k :
  forall n, dashLoop (repeat dash k) n = None.
Proof. induction k as [|k IH]; intros n; simpl; [reflexivity | apply IH]. Qed.

Lemma dashLoop_stops k c rest :
  c <> dash -> forall n, dashLoop (repeat dash k ++ c :: rest) n = Some (n + k).
Proof.
  intros Hc. induction k as [|k IH]; intros n; simpl.
  - apply N.eqb_neq in Hc. rewrite Hc. f_equal. lia.
  - rewrite IH. f_equal. lia.
Qed.

Lemma dashes_or_stop key :
  (exists k, key = repeat dash k) \/
  (exists k c rest, key = repeat dash k ++ c :: rest /\ c <> dash).
Proof.
  induction key as [|c key IH].
  - left. now exists 0.
  - destruct (N.eq_dec c dash) as [-> | Hne].
    + destruct IH as [(k & ->) | (k & c' & rest & -> & Hc')].
      * left. now exists (S k).
      * right. now exists (S k), c', rest.
    + right. now exists 0, c, key.
Qed.

Lemma skipn_dashes k l : skipn k (repeat dash k ++ l) = l.
Proof. induction k as [|k IH]; simpl; auto. Qed.

(** X12.  [sanitiseKey] accepts exactly the names written [-c], one dash
    and one character, and [--name], two dashes and a name that is not
    empty; in both the character after the dashes is not a dash, and what is
    returned is the name without its dashes. *)
Theorem sanitiseKey_accepts (key name : str) :
  sanitiseKey key = Done name <->
  (exists c, c <> dash /\ key = [dash; c] /\ name = [c]) \/
  (exists c rest, c <> dash /\ key = dash :: dash :: c :: rest /\ name = c :: rest).
Proof.
  split.
  - unfold sanitiseKey.
    destruct (dashes_or_stop key) as [(k & ->) | (k & c & rest & -> & Hc)].
    { rewrite dashLoop_dashes. discriminate. }
    rewrite (dashLoop_stops k c rest Hc 0). simpl Nat.add.
    destruct k as [|[|[|k]]]; simpl; try discriminate.
    + destruct rest as [|c' rest]; simpl; [|discriminate].
      intros H. inversion H. left. now exists c.
    + intros H. inversion H. right. now exists c, rest.
  - intros [(c & Hc & -> & ->) | (c & rest & Hc & -> & ->)];
      unfold sanitiseKey; simpl; apply N.eqb_neq in Hc; rewrite Hc; reflexivity.
Qed.

Lemma sanitiseKey_accepts_witness :
  sanitiseKey (lit "--project") = Done (lit "project") /\
  sanitiseKey (lit "-p") = Done (lit "p") /\
  ((exists c, c <> dash /\ lit "-p" = [dash; c] /\ lit "p" = [c]) \/
   (exists c rest, c <> dash /\ lit "-p" = dash :: dash :: c :: rest /\
                   lit "p" = c :: rest)).
Proof.
  split; [reflexivity | split; [reflexivity|]].
  apply (proj1 (sanitiseKey_accepts (lit "-p") (lit "p"))). reflexivity.
Defined.

(** X13.  A name made of dashes only, the empty name and [--] included,
    makes [sanitiseKey] run off the end of the string: it raises
    [IndexError].  [parseOptions] does not catch it, so such an argument,
    with or without a value, ends it with [IndexError] and not with the
    [RuntimeError] it documents. *)
Theorem sanitiseKey_dashes_only
        (n : nat) (value : str) (rest : list str) (found : dict) :
  sanitiseKey (repeat dash n) = Fails StringIndexOutOfRange /\
  parseOptionsLoop (repeat dash n :: rest) found = Fails StringIndexOutOfRange /\
  parseOptionsLoop ((repeat dash n ++ equalsSign :: value) :: rest) found
  = Fails StringIndexOutOfRange /\
  classOf StringIndexOutOfRange = IndexError.
Proof.
  assert (Hkey : sanitiseKey (repeat dash n) = Fails StringIndexOutOfRange).
  { unfold sanitiseKey. now rewrite dashLoop_dashes. }
  assert (Hno : ~ In equalsSign (repeat dash n)).
  { intros Hin. apply repeat_spec in Hin. discriminate. }
  split; [exact Hkey | split; [|split; [|reflexivity]]].
  - cbn [parseOptionsLoop]. rewrite (str_split_without _ _ Hno). cbn [hd].
    now rewrite Hkey.
  - cbn [parseOptionsLoop]. rewrite (str_split_app _ _ _ Hno). cbn [hd].
    now rewrite Hkey.
Qed.

(** *** [sanitiseValue] *)

(** X14.  [sanitiseValue] fails on the empty value only.  From a value
    written between two equal quotes, without a newline between them, it
    returns what is between the quotes, be it empty; if a newline follows
    the closing quote it drops that newline and keeps the quote.  A value
    that is not quoted is returned as it is. *)
Theorem sanitiseValue_cases (value : str) :
  (sanitiseValue value = Fails NoValue <-> value = []) /\
  (forall e, sanitiseValue value = Fails e -> e = NoValue) /\
  (forall q body,
      isQuote q = true -> Forall (fun c => c <> newline) body ->
      sanitiseValue (q :: body ++ [q]) = Done body /\
      sanitiseValue (q :: body ++ [q; newline]) = Done (body ++ [q])) /\
  (value <> [] -> ~ quoted value -> sanitiseValue value = Done value).
Proof.
  split; [|split; [|split]].
  - unfold sanitiseValue. destruct value as [|c value]; cbn [length Nat.eqb].
    + tauto.
    + split; [|discriminate]. destruct (stringRegexMatch (c :: value)); discriminate.
  - intros e. unfold sanitiseValue.
    destruct (Nat.eqb (length value) 0); [congruence|].
    destruct (stringRegexMatch value); discriminate.
  - intros q body Hq Hbody.
    assert (H1 : stringRegexMatch (q :: body ++ [q]) = true).
    { apply stringRegexMatch_quoted. exists q, body. auto. }
    assert (H2 : stringRegexMatch (q :: body ++ [q; newline]) = true).
    { apply stringRegexMatch_quoted. exists q, body. auto. }
    unfold sanitiseValue. rewrite H1, H2. cbn [length Nat.eqb tl].
    split; f_equal.
    + apply removelast_last.
    + change [q; newline] with ([q] ++ [newline]).
      rewrite app_assoc. apply removelast_last.
  - intros Hne Hnq. unfold sanitiseValue.
    destruct value as [|c value]; [congruence|]. cbn [length Nat.eqb].
    destruct (stringRegexMatch (c :: value)) eqn:Hm; [|reflexivity].
    apply stringRegexMatch_quoted in Hm. contradiction.
Qed.

Lemma sanitiseValue_cases_witness :
  sanitiseValue (lit "'a b'") = Done (lit "a b") /\
  sanitiseValue (lit "''") = Done [] /\
  sanitiseValue (lit "src/pkg") = Done (lit "src/pkg").
Proof.
  split; [|split].
  - apply (proj1 (proj2 (proj2 (sanitiseValue_cases [])))
             singleQuote (lit "a b") eq_refl).
    repeat constructor; discriminate.
  - apply (proj1 (proj2 (proj2 (sanitiseValue_cases [])))
             singleQuote [] eq_refl).
    constructor.
  - apply (proj2 (proj2 (proj2 (sanitiseValue_cases (lit "src/pkg"))))).
    + discriminate.
    + intros (q & body & Hq & _ & [H | H]); inversion H; subst; discriminate.
Defined.

(** *** [parseOptions] *)

Lemma sanitiseKey_short c : c <> dash -> sanitiseKey [dash; c] = Done [c].
Proof.
  intros Hc. apply N.eqb_neq in Hc. unfold sanitiseKey. simpl. now rewrite Hc.
Qed.

Lemma sanitiseKey_long c rest :
  c <> dash -> sanitiseKey (dash :: dash :: c :: rest) = Done (c :: rest).
Proof.
  intros Hc. apply N.eqb_neq in Hc. unfold sanitiseKey. simpl. now rewrite Hc.
Qed.

Lemma sanitiseValue_unquote value :
  value <> [] -> sanitiseValue value = Done (unquote value).
Proof.
  intros H. unfold sanitiseValue, unquote.
  destruct value as [|c value]; [congruence|]. cbn [length Nat.eqb].
  now destruct (stringRegexMatch (c :: value)).
Qed.

Lemma parseOptionsLoop_option o rest found :
  wellFormedOption o ->
  parseOptionsLoop (optionArg o :: rest) found
  = parseOptionsLoop rest (dict_set (optionKey o) (unquote (optionValue o)) found).
Proof.
  destruct o as [sh key value]. unfold wellFormedOption, optionArg.
  cbn [short optionKey optionValue].
  intros ((c & krest & -> & Hc) & Hkey & Hshort & Hvalue & Hnoeq).
  set (dashes := if sh then [dash] else [dash; dash]).
  assert (Hsplit : str_split equalsSign (dashes ++ (c :: krest) ++ equalsSign :: value)
                   = (dashes ++ c :: krest) :: [value]).
  { rewrite app_assoc, str_split_app, (str_split_without _ _ Hnoeq); [reflexivity|].
    intros Hin. apply in_app_or in Hin. destruct Hin as [Hin | Hin]; [|contradiction].
    unfold dashes in Hin. destruct sh; simpl in Hin; intuition discriminate. }
  assert (Hk : sanitiseKey (dashes ++ c :: krest) = Done (c :: krest)).
  { unfold dashes. destruct sh.
    - specialize (Hshort eq_refl). destruct krest; [|discriminate].
      now apply sanitiseKey_short.
    - now apply sanitiseKey_long. }
  cbn [parseOptionsLoop]. rewrite Hsplit. cbn [hd]. rewrite Hk.
  now rewrite (sanitiseValue_unquote _ Hvalue).
Qed.

Lemma parseOptionsLoop_options os :
  Forall wellFormedOption os ->
  forall found,
    parseOptionsLoop (map optionArg os) found
    = Done (fold_left (fun d o => dict_set (optionKey o) (unquote (optionValue o)) d)
                      os found).
Proof.
  induction 1 as [|o os Ho _ IH]; intros found; [reflexivity|].
  cbn [map fold_left]. rewrite (parseOptionsLoop_option _ _ _ Ho). apply IH.
Qed.

Lemma dict_get_fold k os :
  forall d,
    dict_get k (fold_left (fun d o => dict_set (optionKey o) (unquote (optionValue o)) d)
                          os d)
    = fold_left (fun found o =>
                   if str_eqb k (optionKey o) then Some (unquote (optionValue o))
                   else found)
                os (dict_get k d).
Proof.
  induction os as [|o os IH]; intros d; [reflexivity|].
  cbn [fold_left]. now rewrite IH, dict_get_set.
Qed.

(** X15.  From well-formed arguments [-k=value] and [--key=value],
    [parseOptions] returns the dictionary of the names without dashes and
    the values without their quotes; where a name is written more than once
    the last value counts, and [-k] and [--key] are different names. *)
Theorem parseOptions_well_formed (os : list optionText)
        (Hwf : Forall wellFormedOption os) :
  parseOptions (map optionArg os) = Done (optionsOf os) /\
  forall k, dict_get k (optionsOf os) = lastValue k os.
Proof.
  split.
  - apply (parseOptionsLoop_options os Hwf []).
  - intros k. unfold optionsOf, lastValue. apply (dict_get_fold k os []).
Qed.

Lemma parseOptions_well_formed_witness :
  Forall wellFormedOption
         [mkOption true (lit "d") (lit "3"); mkOption false (lit "something") (lit "'a b'");
          mkOption false (lit "d") (lit "4"); mkOption true (lit "d") (lit "5")] /\
  parseOptions [lit "-d=3"; lit "--something='a b'"; lit "--d=4"; lit "-d=5"]
  = Done [(lit "d", lit "5"); (lit "something", lit "a b")].
Proof.
  assert (H : Forall wellFormedOption
                [mkOption true (lit "d") (lit "3");
                 mkOption false (lit "something") (lit "'a b'");
                 mkOption false (lit "d") (lit "4"); mkOption true (lit "d") (lit "5")]).
  { repeat constructor; cbn; try discriminate;
      try (eexists; eexists; split; [reflexivity | discriminate]);
      intuition discriminate. }
  split; [exact H|].
  exact (proj1 (parseOptions_well_formed _ H)).
Defined.

Lemma dict_in_set k k' v d :
  dict_in k (dict_set k' v d) = str_eqb k k' || dict_in k d.
Proof. unfold dict_in. rewrite dict_get_set. now destruct (str_eqb k k'). Qed.

Lemma parseOptionsLoop_done args :
  forall found d,
    parseOptionsLoop args found = Done d ->
    (forall k, dict_in k found = true -> dict_in k d = true) /\
    Forall (fun arg =>
              count_occ N.eq_dec arg equalsSign = 1 /\
              exists key, sanitiseKey (hd [] (str_split equalsSign arg)) = Done key /\
                          dict_in key d = true) args.
Proof.
  induction args as [|arg args IH]; intros found d H.
  - inversion H; subst. split; [auto | constructor].
  - cbn [parseOptionsLoop] in H.
    pose proof (str_split_length equalsSign arg) as Hlen.
    destruct (sanitiseKey (hd [] (str_split equalsSign arg))) as [key|e] eqn:Hkey;
      [|discriminate].
    destruct (str_split equalsSign arg) as [|a0 [|v [|x pieces]]] eqn:Hsplit;
      try discriminate.
    destruct (sanitiseValue v) as [value|e] eqn:Hv.
    2:{ destruct (classOf e); discriminate. }
    apply IH in H. destruct H as (Hkeep & Hall).
    assert (Hin : dict_in key d = true).
    { apply Hkeep. rewrite dict_in_set, str_eqb_refl. reflexivity. }
    split.
    + intros k Hk. apply Hkeep. rewrite dict_in_set, Hk. apply orb_true_r.
    + constructor; [|exact Hall].
      split; [simpl in Hlen; lia | exists key; rewrite Hsplit; auto].
Qed.

(** X16.  Every argument [parseOptions] accepts holds exactly one equals
    sign, and its name is in the dictionary returned: an argument without a
    value, such as the [-q] and [--quiet] of the usage message, is never
    accepted. *)
Theorem parseOptions_requires_value (args : list str) (d : dict)
        (Hdone : parseOptions args = Done d) :
  Forall (fun arg =>
            count_occ N.eq_dec arg equalsSign = 1 /\
            exists key, sanitiseKey (hd [] (str_split equalsSign arg)) = Done key /\
                        dict_in key d = true) args /\
  ~ In (lit "-q") args /\ ~ In (lit "--quiet") args.
Proof.
  apply parseOptionsLoop_done in Hdone. destruct Hdone as (_ & Hall).
  split; [exact Hall|].
  rewrite Forall_forall in Hall.
  split; intros Hin; apply Hall in Hin; destruct Hin as (Hc & _); discriminate.
Qed.

Lemma parseOptions_requires_value_witness :
  parseOptions [lit "-p=src"; lit "--depth=2"]
  = Done [(lit "p", lit "src"); (lit "depth", lit "2")] /\
  ~ In (lit "-q") [lit "-p=src"; lit "--depth=2"].
Proof.
  split; [reflexivity|].
  exact (proj1 (proj2 (parseOptions_requires_value
                         [lit "-p=src"; lit "--depth=2"]
                         [(lit "p", lit "src"); (lit "depth", lit "2")] eq_refl))).
Defined.

(** *** Reading the options back *)

Lemma dict_get_without names k :
  forall d,
    dict_get k (fold_left (fun args name =>
                             if dict_in name args then dict_del name args else args)
                          names d)
    = if existsb (str_eqb k) names then None else dict_get k d.
Proof.
  induction names as [|name names IH]; intros d; [reflexivity|].
  cbn [fold_left existsb]. rewrite IH.
  destruct (existsb (str_eqb k) names); [now rewrite orb_true_r|].
  rewrite orb_false_r. unfold dict_in.
  destruct (dict_get name d) as [v|] eqn:Hname.
  - apply dict_get_del.
  - destruct (str_eqb k name) eqn:E; [|reflexivity].
    apply str_eqb_eq in E. now subst.
Qed.

(** X17.  [getOutputterArguments] returns the options without the eight
    standard names: a standard name is never in the dictionary returned,
    and any other name has the value it has in [self.options]. *)
Theorem getOutputterArguments_lookup (self : ArgumentProcessor) (k : str) :
  dict_get k (getOutputterArguments self)
  = if existsb (str_eqb k) STANDARD_OPTIONS then None else dict_get k (options self).
Proof. unfold getOutputterArguments. apply dict_get_without. Qed.

Lemma getOptionLoop_outside optionName names d :
  (forall equivalences, In equivalences names -> ~ In optionName equivalences) ->
  getOptionLoop optionName names d = None.
Proof.
  induction names as [|e names IH]; intros H; [reflexivity|].
  cbn [getOptionLoop].
  destruct (existsb (str_eqb optionName) e) eqn:E.
  - apply existsb_str_eqb in E. exfalso. apply (H e); [now left | assumption].
  - apply IH. intros e' He'. apply H. now right.
Qed.

(** X18.  [getOption] answers for a name with its own value when it has
    one, and otherwise with the value of its equivalent name: [p] and
    [project], [q] and [quiet], [d] and [depth], [o] and [outputter] can be
    asked for one another.  A name outside these pairs has its own value or
    none. *)
Theorem getOption_equivalent_names
        (self : ArgumentProcessor) (shortName longName : str)
        (Hpair : In [shortName; longName] EQUIVALENT_OPTION_NAMES) :
  getOption shortName self
  = match dict_get shortName (options self) with
    | Some v => Some v
    | None => dict_get longName (options self)
    end /\
  getOption longName self
  = match dict_get longName (options self) with
    | Some v => Some v
    | None => dict_get shortName (options self)
    end /\
  forall other,
    (forall equivalences, In equivalences EQUIVALENT_OPTION_NAMES ->
                          ~ In other equivalences) ->
    getOption other self = dict_get other (options self).
Proof.
  split; [|split].
  - destruct Hpair as [H | [H | [H | [H | []]]]]; inversion H; subst; clear H;
      unfold getOption, dict_in; generalize (options self); intros d;
      cbv -[dict_get];
      repeat match goal with
             | |- context [dict_get ?k d] => destruct (dict_get k d)
             end; reflexivity.
  - destruct Hpair as [H | [H | [H | [H | []]]]]; inversion H; subst; clear H;
      unfold getOption, dict_in; generalize (options self); intros d;
      cbv -[dict_get];
      repeat match goal with
             | |- context [dict_get ?k d] => destruct (dict_get k d)
             end; reflexivity.
  - intros other Hout. unfold getOption, dict_in.
    destruct (dict_get other (options self)) as [v|]; [reflexivity|].
    cbn [negb]. now apply getOptionLoop_outside.
Qed.

Lemma getOption_equivalent_names_witness :
  In [lit "p"; lit "project"] EQUIVALENT_OPTION_NAMES /\
  getOption (lit "p") (mkProcessor [(lit "project", lit "src")] None None None)
  = Some (lit "src").
Proof.
  assert (H : In [lit "p"; lit "project"] EQUIVALENT_OPTION_NAMES) by (left; reflexivity).
  split; [exact H|].
  exact (proj1 (getOption_equivalent_names
                  (mkProcessor [(lit "project", lit "src")] None None None)
                  (lit "p") (lit "project") H)).
Defined.

(** *** [process] *)

Lemma getOption_standard self :
  getOption (lit "p") self = shortOrLong (lit "p") (lit "project") (options self) /\
  getOption (lit "d") self = shortOrLong (lit "d") (lit "depth") (options self) /\
  getOption (lit "o") self = shortOrLong (lit "o") (lit "outputter") (options self).
Proof.
  unfold getOption, dict_in, shortOrLong. generalize (options self). intros d.
  repeat split; cbv -[dict_get];
    repeat match goal with
           | |- context [dict_get ?k d] => destruct (dict_get k d)
           end; reflexivity.
Qed.

Lemma processProject_done (isdir : str -> bool) self self2 :
  processProject isdir self = (Done tt, self2) ->
  options self2 = options self /\ maxDepth self2 = maxDepth self /\
  outputterName self2 = outputterName self /\
  match shortOrLong (lit "p") (lit "project") (options self) with
  | Some directory => projectDirectory self2 = Some directory /\ isdir directory = true
  | None => self2 = self
  end.
Proof.
  unfold processProject, shortOrLong, setProjectDirectory.
  destruct (dict_get (lit "p") (options self)) as [dir|].
  - destruct (isdir dir) eqn:Hdir; simpl; intros H; inversion H; subst; simpl; auto.
  - destruct (dict_get (lit "project") (options self)) as [dir|].
    + destruct (isdir dir) eqn:Hdir; simpl; intros H; inversion H; subst; simpl; auto.
    + intros H. inversion H; subst. auto.
Qed.

Lemma validateDepth_done (int : str -> option Z) depth n :
  validateDepth int depth = Done n -> (0 <= n)%Z /\ int depth = Some n.
Proof.
  unfold validateDepth. destruct (int depth) as [m|]; [|discriminate].
  destruct (Z.ltb_spec m 0) as [Hneg | Hpos]; [discriminate|].
  intros H. inversion H; subst. auto.
Qed.

Lemma processDepth_done (int : str -> option Z) self self3 :
  processDepth int self = (Done tt, self3) ->
  options self3 = options self /\ projectDirectory self3 = projectDirectory self /\
  outputterName self3 = outputterName self /\
  exists depth,
    maxDepth self3 = Some depth /\
    match depth with
    | None => shortOrLong (lit "d") (lit "depth") (options self) = None
    | Some n =>
        (0 <= n)%Z /\
        exists text, shortOrLong (lit "d") (lit "depth") (options self) = Some text /\
                     int text = Some n
    end.
Proof.
  unfold processDepth, shortOrLong.
  destruct (dict_get (lit "d") (options self)) as [text|].
  - destruct (validateDepth int text) as [n|e] eqn:Hv; [|discriminate].
    apply validateDepth_done in Hv.
    intros H. inversion H; subst. simpl. repeat split.
    exists (Some n). split; [reflexivity|]. split; [tauto|]. exists text. tauto.
  - destruct (dict_get (lit "depth") (options self)) as [text|].
    + destruct (validateDepth int text) as [n|e] eqn:Hv; [|discriminate].
      apply validateDepth_done in Hv.
      intros H. inversion H; subst. simpl. repeat split.
      exists (Some n). split; [reflexivity|]. split; [tauto|]. exists text. tauto.
    + intros H. inversion H; subst. simpl. repeat split.
      exists None. auto.
Qed.

Lemma checkMandatoryOptions_true ignored self :
  checkMandatoryOptions ignored self = true ->
  shortOrLong (lit "p") (lit "project") (options self) <> None.
Proof.
  unfold checkMandatoryOptions, MANDATORY_OPTIONS, shortOrLong, dict_in.
  cbn [forallb existsb].
  destruct (dict_get (lit "p") (options self)); [discriminate|].
  destruct (dict_get (lit "project") (options self)); [discriminate|].
  discriminate.
Qed.

(** X19.  When [process] returns, the arguments were at least two, none of
    them [-h] or [--help], and all of them options that [parseOptions]
    accepts; [projectDirectory] is the value of [p], or else of
    [project], and is a directory; [maxDepth] is [None] when no depth was
    given and otherwise the integer read from [d], or else from [depth],
    which is not negative; [outputterName] is the value of [o], or else of
    [outputter], or [None]. *)
Theorem process_done
        (isdir : str -> bool) (int : str -> option Z)
        (args : list str) (self self' : ArgumentProcessor)
        (Hdone : process isdir int args self = (Done tt, self')) :
  2 <= length args /\ ~ In (lit "-h") args /\ ~ In (lit "--help") args /\
  parseOptions (tl args) = Done (options self') /\
  (exists directory,
      projectDirectory self' = Some directory /\ isdir directory = true /\
      getOption (lit "p") self' = Some directory) /\
  (exists depth,
      maxDepth self' = Some depth /\
      match depth with
      | None => getOption (lit "d") self' = None
      | Some n =>
          (0 <= n)%Z /\
          exists text, getOption (lit "d") self' = Some text /\ int text = Some n
      end) /\
  outputterName self' = Some (getOption (lit "o") self').
Proof.
  unfold process in Hdone.
  destruct (checkForUsageMessage args) as [[]|e] eqn:Husage; [|discriminate].
  destruct (parseOptions (tl args)) as [parsed|e] eqn:Hparse; [|discriminate].
  set (self1 := mkProcessor parsed (projectDirectory self) (maxDepth self)
                            (outputterName self)) in Hdone.
  destruct (processProject isdir self1) as [[[]|e] self2] eqn:Hproject; [|discriminate].
  destruct (processDepth int self2) as [[[]|e] self3] eqn:Hdepth; [|discriminate].
  destruct (checkMandatoryOptions (options (processOutputter self3))
                                  (processOutputter self3)) eqn:Hmandatory;
    [|discriminate].
  cbn [negb] in Hdone. inversion Hdone; subst self'. clear Hdone.
  apply processProject_done in Hproject.
  destruct Hproject as (Ho2 & _ & _ & Hdir).
  apply processDepth_done in Hdepth.
  destruct Hdepth as (Ho3 & Hp3 & _ & depth & Hmax & Hdepth).
  apply checkMandatoryOptions_true in Hmandatory.
  destruct (getOption_standard (processOutputter self3)) as (Gp & Gd & Go).
  assert (Hopts : options (processOutputter self3) = parsed).
  { cbn [processOutputter options]. rewrite Ho3, Ho2. reflexivity. }
  rewrite Hopts in *. rewrite Ho2 in Hdepth. cbn [options self1] in Hdir, Hdepth.
  unfold checkForUsageMessage in Husage.
  destruct (Nat.ltb_spec (length args) 2) as [|Hlen]; [discriminate|].
  destruct (existsb (str_eqb (lit "-h")) args) eqn:Hh; [discriminate|].
  destruct (existsb (str_eqb (lit "--help")) args) eqn:Hhelp; [discriminate|].
  split; [exact Hlen|].
  split; [intros Hin; apply existsb_str_eqb in Hin; congruence|].
  split; [intros Hin; apply existsb_str_eqb in Hin; congruence|].
  split; [reflexivity|].
  split; [|split].
  - destruct (shortOrLong (lit "p") (lit "project") parsed) as [dir|]; [|congruence].
    destruct Hdir as (Hdir1 & Hdir2).
    exists dir. cbn [processOutputter projectDirectory]. rewrite Hp3. auto.
  - exists depth. cbn [processOutputter maxDepth]. split; [exact Hmax|].
    destruct depth as [n|]; rewrite Gd; exact Hdepth.
  - rewrite Go. cbn [processOutputter outputterName]. rewrite Ho3, Ho2.
    reflexivity.
Qed.

Lemma process_done_witness :
  process (fun directory => str_eqb directory (lit "src")) (fun _ => Some 3%Z)
          [lit "prog"; lit "--project=src"; lit "-d=3"; lit "--colour=red"] newProcessor
  = (Done tt,
     mkProcessor [(lit "project", lit "src"); (lit "d", lit "3");
                  (lit "colour", lit "red")]
                 (Some (lit "src")) (Some (Some 3%Z)) (Some None)) /\
  2 <= length [lit "prog"; lit "--project=src"; lit "-d=3"; lit "--colour=red"].
Proof.
  split; [reflexivity|].
  exact (proj1 (process_done
                  (fun directory => str_eqb directory (lit "src")) (fun _ => Some 3%Z)
                  [lit "prog"; lit "--project=src"; lit "-d=3"; lit "--colour=red"]
                  newProcessor _ eq_refl)).
Defined.
